(** * g2o slam3d: the quaternion-from-rotation-matrix functor and the
      Jacobian workspace discipline of [unit_test/slam3d/jacobians_slam3d.cpp]

    The functor [RotationMatrix2QuaternionManifold::operator()] is a C++
    template over its scalar type [T] (instantiated at [double] and at the
    automatic-differentiation jets).  It is embedded once, over an interface
    [Scalar] that lists exactly the operations the template body uses, and
    then instantiated at the real numbers (for the geometric statements) and
    at the IEEE binary64 numbers (for evaluation on concrete inputs). *)

From Stdlib Require Import Floats.
From Stdlib Require Import Reals Lra Lia List Bool Arith PeanoNat.
From Stdlib Require Import RNsatz.
Import ListNotations.

Set Implicit Arguments.

(** ** The scalar interface of the template *)

Declare Scope scalar_scope.
Delimit Scope scalar_scope with sc.

(** What the template body asks of [T]: the constants [T(0)], [T(1)] (also
    written [T(1.0)]), [T(0.5)] and [T(-1)], the four arithmetic operations,
    [sqrt], and the strict comparison [<] ([a > b] is [b < a]). *)
Class Scalar (T : Type) : Type := {
  s0 : T;
  s1 : T;
  shalf : T;
  sm1 : T;
  sadd : T -> T -> T;
  ssub : T -> T -> T;
  smul : T -> T -> T;
  sdiv : T -> T -> T;
  ssqrt : T -> T;
  sltb : T -> T -> bool
}.

Notation "x + y" := (sadd x y) : scalar_scope.
Notation "x - y" := (ssub x y) : scalar_scope.
Notation "x * y" := (smul x y) : scalar_scope.
Notation "x / y" := (sdiv x y) : scalar_scope.
Notation "x <? y" := (sltb x y) : scalar_scope.
Notation "x >? y" := (sltb y x) : scalar_scope.

(** The order laws some statements need: [<] is a strict partial order.
    (On [double] a NaN is comparable with nothing, so totality is not asked.) *)
Class ScalarOrder (T : Type) `{Scalar T} : Prop := {
  sltb_irrefl : forall x : T, sltb x x = false;
  sltb_trans : forall x y z : T,
      sltb x y = true -> sltb y z = true -> sltb x z = true
}.
Arguments ScalarOrder T {_}.

(** *** Instance: the real numbers *)

Definition Rltb (x y : R) : bool := if Rlt_dec x y then true else false.

#[export] Instance Scalar_R : Scalar R := {
  s0 := 0%R;
  s1 := 1%R;
  shalf := (1 / 2)%R;
  sm1 := (- 1)%R;
  sadd := Rplus;
  ssub := Rminus;
  smul := Rmult;
  sdiv := Rdiv;
  ssqrt := R_sqrt.sqrt;
  sltb := Rltb
}.

(** *** Instance: IEEE 754 binary64, the C++ [double] *)

#[export] Instance Scalar_double : Scalar float := {
  s0 := 0%float;
  s1 := 1%float;
  shalf := 0.5%float;
  sm1 := (-1)%float;
  sadd := PrimFloat.add;
  ssub := PrimFloat.sub;
  smul := PrimFloat.mul;
  sdiv := PrimFloat.div;
  ssqrt := PrimFloat.sqrt;
  sltb := PrimFloat.ltb
}.

(** ** Memory: arrays behind [const T*] and [T*] *)

(** An array is read through its index; [store] is the assignment
    [a[i] = v]. *)
Definition array (T : Type) : Type := nat -> T.

Definition store {T : Type} (a : array T) (i : nat) (v : T) : array T :=
  fun n => if Nat.eqb n i then v else a n.

Definition of_list {T : Type} (d : T) (l : list T) : array T :=
  fun n => nth n l d.

(** ** The functor [RotationMatrix2QuaternionManifold] *)

Section Functor.
Context {T : Type} `{Scalar T}.
Local Open Scope scalar_scope.

(** [Eigen::Matrix<T,3,3>::ConstMapType R(rotMatSerialized)]: a column-major
    view, [R(r,c)] is [rotMatSerialized[r + 3*c]]. *)
Definition coeff (rotMatSerialized : array T) (r c : nat) : T :=
  rotMatSerialized (r + 3 * c)%nat.

(** [R.trace()]: the sum of the diagonal coefficients.  (In which order
    Eigen performs the two additions matters on [double] only, and to none
    of the statements below.) *)
Definition trace (m : array T) : T :=
  coeff m 0 0 + coeff m 1 1 + coeff m 2 2.

(** The branch [t > T(0)]. *)
Definition trace_branch (m : array T) (quaternion : array T) : array T :=
  let t := trace m in
  let t := ssqrt (t + s1) in
  let t := shalf / t in
  let quaternion := store quaternion 0 ((coeff m 2 1 - coeff m 1 2) * t) in
  let quaternion := store quaternion 1 ((coeff m 0 2 - coeff m 2 0) * t) in
  store quaternion 2 ((coeff m 1 0 - coeff m 0 1) * t).

(** [int i = 0; if (R(1,1) > R(0,0)) i = 1; if (R(2,2) > R(i,i)) i = 2;] *)
Definition select_index (m : array T) : nat :=
  let i := 0%nat in
  let i := if coeff m 1 1 >? coeff m 0 0 then 1%nat else i in
  let i := if coeff m 2 2 >? coeff m i i then 2%nat else i in
  i.

Definition next_index (i : nat) : nat := (i + 1) mod 3.

(** The argument of the square root in the else branch,
    [R(i,i) - R(j,j) - R(k,k) + T(1.0)]. *)
Definition diag_arg (m : array T) (i : nat) : T :=
  let j := next_index i in
  let k := next_index j in
  coeff m i i - coeff m j j - coeff m k k + s1.

(** The else branch up to and including the computation of [w]: the three
    stores and the value of [w]. *)
Definition diag_branch (m : array T) (quaternion : array T)
  : array T * T :=
  let i := select_index m in
  let j := next_index i in
  let k := next_index j in
  let t := ssqrt (diag_arg m i) in
  let quaternion := store quaternion i (shalf * t) in
  let t := shalf / t in
  let quaternion := store quaternion j ((coeff m j i + coeff m i j) * t) in
  let quaternion := store quaternion k ((coeff m k i + coeff m i k) * t) in
  let w := (coeff m k j - coeff m j k) * t in
  (quaternion, w).

(** [for (int l = 0; l < 3; ++l) quaternion[l] *= T(-1);] *)
Definition negate_all (quaternion : array T) : array T :=
  fold_left (fun q l => store q l (q l * sm1)) (seq 0 3) quaternion.

(** [if (w < 0.) { ... }] *)
Definition normalize_manifold (qw : array T * T) : array T :=
  let (quaternion, w) := qw in
  if w <? s0 then negate_all quaternion else quaternion.

(** [operator()]: the returned flag and the output array after the call. *)
Definition rot2quat (rotMatSerialized : array T) (quaternion : array T)
  : bool * array T :=
  let t := trace rotMatSerialized in
  if t >? s0
  then (true, trace_branch rotMatSerialized quaternion)
  else (true, normalize_manifold (diag_branch rotMatSerialized quaternion)).

End Functor.

(** ** The index choice, in the words of the specification *)

Section RunningMax.
Context {T : Type} `{Scalar T}.
Local Open Scope scalar_scope.

(** Scan the indices [l, l+1, ...] ([n] of them) keeping the index [best]
    of the running maximum; an index replaces [best] only when its entry
    strictly exceeds the entry at [best]. *)
Fixpoint spec_scan (d : nat -> T) (best l n : nat) : nat :=
  match n with
  | O => best
  | S n' => spec_scan d (if d l >? d best then l else best) (S l) n'
  end.

(** The scan over the indices 0, 1, 2, starting with index 0 as the
    running maximum. *)
Definition spec_running_max_index (d : nat -> T) : nat := spec_scan d 0 1 2.
End RunningMax.

(** ** Rotation matrices and unit quaternions over the reals *)

Section Rotation.
Local Open Scope R_scope.

(** Inner product of columns [a] and [b]. *)
Definition col_dot (m : array R) (a b : nat) : R :=
  coeff m 0 a * coeff m 0 b + coeff m 1 a * coeff m 1 b
  + coeff m 2 a * coeff m 2 b.

Definition det (m : array R) : R :=
  coeff m 0 0 * (coeff m 1 1 * coeff m 2 2 - coeff m 1 2 * coeff m 2 1)
  - coeff m 0 1 * (coeff m 1 0 * coeff m 2 2 - coeff m 1 2 * coeff m 2 0)
  + coeff m 0 2 * (coeff m 1 0 * coeff m 2 1 - coeff m 1 1 * coeff m 2 0).

(** Orthonormal columns and determinant one. *)
Definition is_rotation (m : array R) : Prop :=
  (forall a b : nat, (a < 3)%nat -> (b < 3)%nat ->
      col_dot m a b = if Nat.eqb a b then 1 else 0)
  /\ det m = 1.

(** The rotation matrix of the quaternion with real part [w] and imaginary
    part [(q 0, q 1, q 2)], entry [(r, c)]. *)
Definition quat_to_matrix (w : R) (q : array R) (r c : nat) : R :=
  let x := q 0%nat in
  let y := q 1%nat in
  let z := q 2%nat in
  match r, c with
  | 0%nat, 0%nat => 1 - 2 * (y * y + z * z)
  | 0%nat, 1%nat => 2 * (x * y - w * z)
  | 0%nat, 2%nat => 2 * (x * z + w * y)
  | 1%nat, 0%nat => 2 * (x * y + w * z)
  | 1%nat, 1%nat => 1 - 2 * (x * x + z * z)
  | 1%nat, 2%nat => 2 * (y * z - w * x)
  | 2%nat, 0%nat => 2 * (x * z - w * y)
  | 2%nat, 1%nat => 2 * (y * z + w * x)
  | 2%nat, 2%nat => 1 - 2 * (x * x + y * y)
  | _, _ => 0
  end.

(** [(w, q)] is a unit quaternion whose rotation matrix is [m]. *)
Definition represents (w : R) (q : array R) (m : array R) : Prop :=
  w * w + q 0%nat * q 0%nat + q 1%nat * q 1%nat + q 2%nat * q 2%nat = 1
  /\ forall r c : nat, (r < 3)%nat -> (c < 3)%nat ->
       quat_to_matrix w q r c = coeff m r c.

(** The real part that the manifold convention attaches to an imaginary
    part: the non-negative root of [1 - |q|^2]. *)
Definition implied_real_part (q : array R) : R :=
  sqrt (1 - (q 0%nat * q 0%nat + q 1%nat * q 1%nat + q 2%nat * q 2%nat)).
End Rotation.

(** ** The linearization layer: vertices, edges, workspace, dispatcher

    The test file calls [JacobianWorkspace], the vertex and edge classes and
    the two [linearizeOplus] implementations of [BaseBinaryEdge], but none of
    them is among the sources.  They are modelled from the specification;
    [evaluateJacobian] itself is in the test file and is embedded from it. *)

(** [l[n] = x], leaving [l] alone when [n] is out of range. *)
Fixpoint set_nth {A : Type} (l : list A) (n : nat) (x : A) : list A :=
  match l, n with
  | [], _ => []
  | _ :: t, O => x :: t
  | h :: t, S n' => h :: set_nth t n' x
  end.

Section LinearizationModel.
Context {T : Type} `{Scalar T}.
Local Open Scope scalar_scope.

(** Modelled from the spec: the manifold value a vertex holds (a rigid
    transform, a point), whose type is missing from the sources. *)
Variable Estimate : Type.

(** Modelled from the spec: the [oplus] of a vertex, missing from the
    sources, as the pure function from the current estimate and a tangent
    vector to the new estimate that section 9 asks for. *)
Variable oplus : Estimate -> list T -> Estimate.

(** Modelled from the spec: the vertex of section 3, missing from the
    sources: a tangent dimension [D_v] and a manifold estimate. *)
Record Vertex : Type := mkVertex {
  dimension : nat;
  estimate : Estimate
}.

(** Modelled from the spec: the vertices of the graph, missing from the
    sources, by their integer id; edges refer to vertices by id and do not
    own them, so two slots of an edge may name the same vertex. *)
Definition Vertices : Type := nat -> Vertex.

(** Modelled from the spec: replacing the estimate of vertex [id], missing
    from the sources (the [setEstimate] the test calls). *)
Definition setEstimate (g : Vertices) (id : nat) (x : Estimate) : Vertices :=
  fun n => if Nat.eqb n id then mkVertex (dimension (g id)) x else g n.

(** Modelled from the spec: the edge of section 3, missing from the sources:
    two ordered vertex references, the error dimension [D_e], the error
    function [e(v_i, v_j, z)] with the measurement [z] already bound, and the
    closed-form derivative, which yields the block of vertex i and the block
    of vertex j. *)
Record Edge : Type := mkEdge {
  vertex_i : nat;
  vertex_j : nat;
  errorDimension : nat;
  computeError : Estimate -> Estimate -> list T;
  linearizeOplus : Estimate -> Estimate -> list T * list T
}.

(** The vertex in slot 0 is vertex i, the vertex in slot 1 is vertex j. *)
Definition edge_vertex (e : Edge) (slot : nat) : nat :=
  match slot with
  | O => vertex_i e
  | _ => vertex_j e
  end.

(** The error of the edge at the current estimates of its two vertices. *)
Definition error (e : Edge) (g : Vertices) : list T :=
  computeError e (estimate (g (vertex_i e))) (estimate (g (vertex_j e))).

(** [numElems] of [evaluateJacobian]: [EdgeType::Dimension] times the
    dimension of the vertex type in slot [i]. *)
Definition numElems (e : Edge) (g : Vertices) (i : nat) : nat :=
  errorDimension e * dimension (g (edge_vertex e i)).

(** Modelled from the spec: the Jacobian workspace of section 3, missing from
    the sources: one buffer per vertex slot, every buffer of the largest
    block size seen by [updateSize]. *)
Record JacobianWorkspace : Type := mkWorkspace {
  maxNumVertices : nat;
  maxDimension : nat;
  buffers : list (list T)
}.

(** Modelled from the spec: a workspace before any sizing, missing from the
    sources (the default-constructed [JacobianWorkspace] of the test). *)
Definition emptyWorkspace : JacobianWorkspace := mkWorkspace 0 0 [].

(** Modelled from the spec: [updateSize] of section 6, missing from the
    sources: it recomputes the required sizes from the dimensions of an edge
    and its vertices and leaves the storage alone. *)
Definition updateSize (ws : JacobianWorkspace) (e : Edge) (g : Vertices)
  : JacobianWorkspace :=
  mkWorkspace (Nat.max (maxNumVertices ws) 2)
    (Nat.max (maxDimension ws) (Nat.max (numElems e g 0) (numElems e g 1)))
    (buffers ws).

(** Modelled from the spec: [allocate] of section 6, missing from the
    sources: it commits backing storage for the sizes computed so far. *)
Definition allocate (ws : JacobianWorkspace) : JacobianWorkspace :=
  mkWorkspace (maxNumVertices ws) (maxDimension ws)
    (repeat (repeat s0 (maxDimension ws)) (maxNumVertices ws)).

(** Modelled from the spec: [workspaceForVertex], missing from the sources:
    the memory of slot [i]. *)
Definition workspaceForVertex (ws : JacobianWorkspace) (i : nat) : list T :=
  nth i (buffers ws) [].

(** Modelled from the spec: writing [data] into a buffer from offset [off]
    on, missing from the sources; a write that does not fit is the caller
    error of sections 4.2 and 7 and is reported, not performed. *)
Definition write_at (buf : list T) (off : nat) (data : list T)
  : option (list T) :=
  if (off + length data <=? length buf)%nat
  then Some (firstn off buf ++ data ++ skipn (off + length data) buf)
  else None.

(** Modelled from the spec: the same write addressed by vertex slot, missing
    from the sources; a slot the workspace does not have is reported too. *)
Definition write_slot (ws : JacobianWorkspace) (slot off : nat)
    (data : list T) : option JacobianWorkspace :=
  match nth_error (buffers ws) slot with
  | None => None
  | Some buf =>
      match write_at buf off data with
      | None => None
      | Some buf' =>
          Some (mkWorkspace (maxNumVertices ws) (maxDimension ws)
                  (set_nth (buffers ws) slot buf'))
      end
  end.

(** Reading the first [n] cells of slot [i], as the comparison loop of
    [evaluateJacobian] does with [n[j]] and [a[j]]. *)
Definition read_block (ws : JacobianWorkspace) (i n : nat) : list T :=
  map (fun j => nth j (workspaceForVertex ws i) s0) (seq 0 n).

(** Modelled from the spec: column [c] of the block in slot [i], the layout
    being missing from the sources; blocks are stored column by column,
    [rows] cells per column. *)
Definition read_column (ws : JacobianWorkspace) (i rows c : nat) : list T :=
  map (fun r => nth (c * rows + r) (workspaceForVertex ws i) s0) (seq 0 rows).

(** Modelled from the spec: [evaluateAnalytic] of section 4.2, missing from
    the sources: the closed-form derivative of the edge, written into the
    slots of vertex i and vertex j. *)
Definition evaluateAnalytic (e : Edge) (ws : JacobianWorkspace)
    (g : Vertices) : option JacobianWorkspace :=
  let J :=
    linearizeOplus e (estimate (g (vertex_i e))) (estimate (g (vertex_j e)))
  in
  match write_slot ws 0 0 (fst J) with
  | None => None
  | Some ws1 => write_slot ws1 1 0 (snd J)
  end.

(** Modelled from the spec: the tangent vector [eps] times basis vector [c],
    of length [D], of section 4.2. *)
Definition basis (D c : nat) (eps : T) : list T :=
  map (fun n => if Nat.eqb n c then eps else s0) (seq 0 D).

(** Modelled from the spec: [(e(+) - e(-)) / (2*epsilon)] of section 4.2,
    component by component. *)
Definition central_difference (e_plus e_minus : list T) (eps : T) : list T :=
  map (fun pm => (fst pm - snd pm) / ((s1 + s1) * eps))
    (combine e_plus e_minus).

(** Modelled from the spec: the error with vertex [id] moved through
    [oplus] by [delta] from the estimate it has in [g]. *)
Definition perturbed_error (e : Edge) (g : Vertices) (id : nat)
    (delta : list T) : list T :=
  error e (setEstimate g id (oplus (estimate (g id)) delta)).

(** Modelled from the spec: one column of [evaluateNumeric] of section 4.2,
    missing from the sources.  The estimate of the vertex is saved; the
    vertex is moved by [+eps] along coordinate [c] and the error evaluated;
    it is moved by [-eps] (from the saved estimate, which is what makes the
    quotient a central difference) and the error evaluated again; the column
    is written; and the saved estimate is put back, also when the write is
    refused.  After a refused write nothing more is done. *)
Definition numeric_column (e : Edge) (eps : T) (slot c : nat)
    (acc : Vertices * option JacobianWorkspace)
  : Vertices * option JacobianWorkspace :=
  match acc with
  | (g, None) => (g, None)
  | (g, Some ws) =>
      let v := edge_vertex e slot in
      let saved := estimate (g v) in
      let D := dimension (g v) in
      let g_plus := setEstimate g v (oplus saved (basis D c eps)) in
      let e_plus := error e g_plus in
      let g_minus := setEstimate g_plus v (oplus saved (basis D c (s0 - eps))) in
      let e_minus := error e g_minus in
      let column := central_difference e_plus e_minus eps in
      let written := write_slot ws slot (c * errorDimension e) column in
      (setEstimate g_minus v saved, written)
  end.

(** Modelled from the spec: the columns [evaluateNumeric] fills, in order:
    for each vertex in [{i, j}], each tangent coordinate in [[0, D_v)]. *)
Definition columns (e : Edge) (g : Vertices) : list (nat * nat) :=
  flat_map
    (fun slot => map (pair slot) (seq 0 (dimension (g (edge_vertex e slot)))))
    [0; 1]%nat.

(** Modelled from the spec: [evaluateNumeric] of section 4.2, missing from
    the sources: the vertices after the call, and the workspace after the
    call or the report of a refused write. *)
Definition evaluateNumeric (e : Edge) (ws : JacobianWorkspace) (eps : T)
    (g : Vertices) : Vertices * option JacobianWorkspace :=
  fold_left (fun acc sc => numeric_column e eps (fst sc) (snd sc) acc)
    (columns e g) (g, Some ws).

(** [evaluateJacobian] of the test file: the closed form is written into the
    numeric workspace, the workspace is copied, the numeric derivative is
    written over it, and then, slot by slot, the first [numElems] cells of
    the two workspaces are compared pairwise.  The result holds the
    vertices and the two workspaces after the call and the pairs
    [(n[j], a[j])] handed to [EXPECT_NEAR], in order. *)
Definition evaluateJacobian (e : Edge) (eps : T)
    (jacobianWorkspace numericJacobianWorkspace : JacobianWorkspace)
    (g : Vertices)
  : option (Vertices * JacobianWorkspace * JacobianWorkspace * list (T * T)) :=
  match evaluateAnalytic e numericJacobianWorkspace g with
  | None => None
  | Some ws1 =>
      let jacobianWorkspace := ws1 in
      match evaluateNumeric e ws1 eps g with
      | (_, None) => None
      | (g', Some ws2) =>
          let compared :=
            flat_map
              (fun i =>
                 combine (read_block ws2 i (numElems e g' i))
                         (read_block jacobianWorkspace i (numElems e g' i)))
              [0; 1]%nat in
          Some (g', jacobianWorkspace, ws2, compared)
      end
  end.

(** *** What the statements about the layer speak of *)

(** The dimensions of an edge are fixed at construction: every error vector
    has [D_e] entries and the closed-form blocks have [D_e * D_vi] and
    [D_e * D_vj] entries. *)
Definition well_formed (e : Edge) (g : Vertices) : Prop :=
  (forall a b : Estimate, length (computeError e a b) = errorDimension e)
  /\ (forall a b : Estimate,
        length (fst (linearizeOplus e a b)) = numElems e g 0
        /\ length (snd (linearizeOplus e a b)) = numElems e g 1).

(** The storage is committed for the recorded sizes. *)
Definition allocated (ws : JacobianWorkspace) : Prop :=
  length (buffers ws) = maxNumVertices ws
  /\ forall i : nat, (i < maxNumVertices ws)%nat ->
       length (workspaceForVertex ws i) = maxDimension ws.

(** The recorded sizes cover the two blocks of the edge. *)
Definition fits (ws : JacobianWorkspace) (e : Edge) (g : Vertices) : Prop :=
  (2 <= maxNumVertices ws)%nat
  /\ (numElems e g 0 <= maxDimension ws)%nat
  /\ (numElems e g 1 <= maxDimension ws)%nat.

(** The same vertices, id by id. *)
Definition same_vertices (g1 g2 : Vertices) : Prop :=
  forall id : nat, g1 id = g2 id.

(** Column [c] of the numeric block of slot [slot], as a function of the
    inputs of the evaluation alone: the central difference of the errors with
    the vertex moved by [+eps] and by [-eps] along coordinate [c]. *)
Definition numeric_column_value (e : Edge) (eps : T) (g : Vertices)
    (slot c : nat) : list T :=
  let v := edge_vertex e slot in
  let D := dimension (g v) in
  central_difference (perturbed_error e g v (basis D c eps))
    (perturbed_error e g v (basis D c (s0 - eps))) eps.

Definition numeric_block (e : Edge) (eps : T) (g : Vertices) (slot : nat)
  : list T :=
  flat_map (numeric_column_value e eps g slot)
    (seq 0 (dimension (g (edge_vertex e slot)))).

Definition analytic_block (e : Edge) (g : Vertices) (slot : nat) : list T :=
  let J :=
    linearizeOplus e (estimate (g (vertex_i e))) (estimate (g (vertex_j e)))
  in
  match slot with
  | O => fst J
  | _ => snd J
  end.

(** Modelled from the spec: the dispatcher's [evaluate] of sections 2 and 6,
    missing from the sources: the blocks come either from the closed form of
    the edge or from central differences. *)
Inductive Mode : Type :=
| Analytic : Mode
| Numeric : T -> Mode.

Definition evaluate (mode : Mode) (e : Edge) (ws : JacobianWorkspace)
    (g : Vertices) : Vertices * option JacobianWorkspace :=
  match mode with
  | Analytic => (g, evaluateAnalytic e ws g)
  | Numeric eps => evaluateNumeric e ws eps g
  end.

(** The block an evaluation is to produce, from its inputs alone. *)
Definition jacobian_block (mode : Mode) (e : Edge) (g : Vertices)
    (slot : nat) : list T :=
  match mode with
  | Analytic => analytic_block e g slot
  | Numeric eps => numeric_block e eps g slot
  end.

(** One evaluation request: how to differentiate, which edge, and the
    vertices as they stand when the request is made. *)
Definition Request : Type := (Mode * Edge * Vertices)%type.

(** A pass: the requests served one after the other into the same
    workspace. *)
Definition evaluate_all (requests : list Request) (ws : JacobianWorkspace)
  : option JacobianWorkspace :=
  fold_left
    (fun acc rq =>
       match acc with
       | None => None
       | Some w => snd (evaluate (fst (fst rq)) (snd (fst rq)) w (snd rq))
       end)
    requests (Some ws).

(** Sizing for a graph: [updateSize] for each of its edges, then
    [allocate], once. *)
Definition sized_for (graph : list (Edge * Vertices)) : JacobianWorkspace :=
  allocate
    (fold_left (fun ws eg => updateSize ws (fst eg) (snd eg)) graph
       emptyWorkspace).

(** An edge whose blocks are no larger than those of an edge of the graph
    the workspace was sized for. *)
Definition covered (graph : list (Edge * Vertices)) (e : Edge)
    (g : Vertices) : Prop :=
  exists eg : Edge * Vertices,
    In eg graph
    /\ (numElems e g 0 <= numElems (fst eg) (snd eg) 0)%nat
    /\ (numElems e g 1 <= numElems (fst eg) (snd eg) 1)%nat.

End LinearizationModel.

(** ** Concrete inputs *)

(** Rotation by [pi] about the z axis, [diag(-1,-1,1)]: trace [-1], and the
    real part computed in the else branch is exactly zero. *)
Definition Fpi_z : array float :=
  of_list 0%float [-1; 0; 0; 0; -1; 0; 0; 0; 1]%float.

(** Rotation by a quarter turn about the z axis (columns [(0,1,0)],
    [(-1,0,0)], [(0,0,1)]): trace [1]. *)
Definition Fquarter_z : array float :=
  of_list 0%float [0; 1; 0; -1; 0; 0; 0; 0; 1]%float.

(** The cyclic permutation matrix [[0 1 0; 0 0 1; 1 0 0]], the rotation by
    a third of a turn about [-(1,1,1)]: trace [0], and the real part computed
    in the else branch is [-1/2]. *)
Definition Rthird : array R := of_list 0%R [0; 0; 1; 1; 0; 0; 0; 1; 0]%R.
Definition Fthird : array float :=
  of_list 0%float [0; 0; 1; 1; 0; 0; 0; 1; 0]%float.

Definition Fgarbage : array float := fun _ => 7%float.

(** A point of space, its update by vector addition, and an edge of error
    dimension three between two points whose error is the difference of the
    points minus the measurement; its closed-form blocks are minus the
    identity and the identity, column by column. *)
Definition Point : Type := (float * float * float)%type.

Definition point_oplus (p : Point) (delta : list float) : Point :=
  let '(x, y, z) := p in
  (x + nth 0 delta 0, y + nth 1 delta 0, z + nth 2 delta 0)%float.

Definition difference_edge (z : Point) : @Edge float Point :=
  mkEdge 0 1 3
    (fun a b =>
       let '(ax, ay, az) := a in
       let '(bx, b_y, bz) := b in
       let '(zx, zy, zz) := z in
       [bx - ax - zx; b_y - ay - zy; bz - az - zz]%float)
    (fun _ _ =>
       ([-1; 0; 0; 0; -1; 0; 0; 0; -1]%float,
        [1; 0; 0; 0; 1; 0; 0; 0; 1]%float)).

Definition two_points (a b : Point) : Vertices Point :=
  fun id =>
    match id with
    | O => mkVertex 3 a
    | _ => mkVertex 3 b
    end.

Definition Fpoints : Vertices Point :=
  two_points (1, 2, 3)%float (4, 6, 8)%float.

Definition Fpoints' : Vertices Point :=
  two_points (0.5, -2, 7)%float (3, 3, 3)%float.

Definition Fedge : @Edge float Point := difference_edge (1, 1, 1)%float.
Definition Fedge' : @Edge float Point := difference_edge (0, 2, -4)%float.

(** The workspace holding minus the identity in slot 0 and the identity in
    slot 1. *)
Definition Fjacobians : JacobianWorkspace :=
  mkWorkspace 2 9
    [[-1; 0; 0; 0; -1; 0; 0; 0; -1]%float; [1; 0; 0; 0; 1; 0; 0; 0; 1]%float].

(** ** Further notions used to state properties of the functor *)

(** The serialized transpose: cell [r + 3*c] of the result is cell
    [c + 3*r] of the argument. *)
Definition transpose {T : Type} (m : array T) : array T :=
  fun n => m (3 * (n mod 3) + n / 3)%nat.

(** The column-major serialization of the rotation matrix of a
    quaternion. *)
Definition matrix_of_quaternion (w : R) (q : array R) : array R :=
  fun n => quat_to_matrix w q (n mod 3) (n / 3).

(** The serialized identity matrix. *)
Definition identity_matrix : array R :=
  of_list 0%R [1; 0; 0; 0; 1; 0; 0; 0; 1]%R.

(** A map between two scalar types that commutes with everything the
    template body uses. *)
Class ScalarMorphism {A B : Type} `{Scalar A} `{Scalar B} (h : A -> B)
  : Prop := {
  morph_s0 : h s0 = s0;
  morph_s1 : h s1 = s1;
  morph_shalf : h shalf = shalf;
  morph_sm1 : h sm1 = sm1;
  morph_add : forall x y : A, h (sadd x y) = sadd (h x) (h y);
  morph_sub : forall x y : A, h (ssub x y) = ssub (h x) (h y);
  morph_mul : forall x y : A, h (smul x y) = smul (h x) (h y);
  morph_div : forall x y : A, h (sdiv x y) = sdiv (h x) (h y);
  morph_sqrt : forall x : A, h (ssqrt x) = ssqrt (h x);
  morph_ltb : forall x y : A, sltb (h x) (h y) = sltb x y
}.


(** A value of [double] together with one derivative, with the arithmetic
    of forward differentiation and the comparison of the values; its first
    projection is the value. *)
Definition Dual : Type := (float * float)%type.

Definition dual_const (c : float) : Dual := (c, 0%float).

#[export] Instance Scalar_Dual : Scalar Dual := {
  s0 := dual_const 0;
  s1 := dual_const 1;
  shalf := dual_const 0.5;
  sm1 := dual_const (-1);
  sadd := fun a b => (fst a + fst b, snd a + snd b)%float;
  ssub := fun a b => (fst a - fst b, snd a - snd b)%float;
  smul := fun a b => (fst a * fst b, fst a * snd b + snd a * fst b)%float;
  sdiv := fun a b =>
            (fst a / fst b, (snd a - fst a / fst b * snd b) / fst b)%float;
  ssqrt := fun a =>
             (PrimFloat.sqrt (fst a),
              snd a / (2 * PrimFloat.sqrt (fst a)))%float;
  sltb := fun a b => PrimFloat.ltb (fst a) (fst b)
}.



(** The quaternion [(1/2, 1/2, 1/2, 1/2)] and its imaginary part. *)
Definition Rhalves : array R := fun _ => (1 / 2)%R.

(** The quarter turn about z, over the reals. *)
Definition Rquarter_z : array R := of_list 0%R [0; 1; 0; -1; 0; 0; 0; 0; 1]%R.

(** ** Basic facts about arrays and the index arithmetic *)

Lemma lt_3_cases (l : nat) : (l < 3)%nat -> l = 0%nat \/ l = 1%nat \/ l = 2%nat.
Proof. lia. Qed.

Section FunctorFacts.
Context {T : Type} `{Scalar T}.
Local Open Scope scalar_scope.

Lemma select_index_cases (m : array T) :
  select_index m = 0%nat \/ select_index m = 1%nat \/ select_index m = 2%nat.
Proof.
  unfold select_index.
  destruct (coeff m 1 1 >? coeff m 0 0);
    [destruct (coeff m 2 2 >? coeff m 1 1)
    | destruct (coeff m 2 2 >? coeff m 0 0)]; auto.
Qed.

Lemma select_index_lt (m : array T) : (select_index m < 3)%nat.
Proof. destruct (select_index_cases m) as [E | [E | E]]; rewrite E; lia. Qed.

Lemma select_index_scan (m : array T) :
  select_index m = spec_running_max_index (fun l => coeff m l l).
Proof. reflexivity. Qed.

Lemma negate_all_spec (q : array T) (l : nat) :
  negate_all q l = if (l <? 3)%nat then q l * sm1 else q l.
Proof.
  unfold negate_all. cbn [seq fold_left].
  destruct l as [| [| [| l]]]; reflexivity.
Qed.

(** The three stores of the else branch hit three different cells. *)
Lemma diag_branch_cells (m q : array T) :
  let i := select_index m in
  let j := next_index i in
  let k := next_index j in
  let s := shalf / ssqrt (diag_arg m i) in
  let qu := fst (diag_branch m q) in
  qu i = shalf * ssqrt (diag_arg m i)
  /\ qu j = (coeff m j i + coeff m i j) * s
  /\ qu k = (coeff m k i + coeff m i k) * s
  /\ snd (diag_branch m q) = (coeff m k j - coeff m j k) * s.
Proof.
  cbv zeta. unfold diag_branch. cbn [fst snd].
  destruct (select_index_cases m) as [E | [E | E]]; rewrite E;
    repeat split; reflexivity.
Qed.

(** What the caller left in cells 0, 1, 2 does not survive the call. *)
Lemma trace_branch_overwrites (m q q' : array T) (l : nat) :
  (l < 3)%nat -> trace_branch m q l = trace_branch m q' l.
Proof.
  intros Hl. destruct (lt_3_cases Hl) as [-> | [-> | ->]]; reflexivity.
Qed.

Lemma diag_branch_overwrites (m q q' : array T) (l : nat) :
  (l < 3)%nat ->
  fst (diag_branch m q) l = fst (diag_branch m q') l
  /\ snd (diag_branch m q) = snd (diag_branch m q').
Proof.
  intros Hl. unfold diag_branch. cbn [fst snd].
  destruct (select_index_cases m) as [E | [E | E]]; rewrite E;
    destruct (lt_3_cases Hl) as [-> | [-> | ->]]; split; reflexivity.
Qed.

Lemma rot2quat_trace (m q : array T) :
  (trace m >? s0) = true -> rot2quat m q = (true, trace_branch m q).
Proof. intros Ht. unfold rot2quat. now rewrite Ht. Qed.

Lemma rot2quat_diag (m q : array T) :
  (trace m >? s0) = false ->
  rot2quat m q = (true, normalize_manifold (diag_branch m q)).
Proof. intros Ht. unfold rot2quat. now rewrite Ht. Qed.

Lemma normalize_manifold_eta (qw : array T * T) :
  normalize_manifold qw =
  if snd qw <? s0 then negate_all (fst qw) else fst qw.
Proof. now destruct qw. Qed.

(** On a tie between two diagonal entries the larger index is not chosen. *)
Lemma select_index_tie `{!ScalarOrder T} (m : array T) (l1 l2 : nat) :
  (l1 < l2)%nat -> (l2 < 3)%nat ->
  coeff m l1 l1 = coeff m l2 l2 ->
  select_index m <> l2.
Proof.
  intros H12 H2 E. unfold select_index.
  destruct (coeff m 1 1 >? coeff m 0 0) eqn:H10;
    [destruct (coeff m 2 2 >? coeff m 1 1) eqn:H2x
    | destruct (coeff m 2 2 >? coeff m 0 0) eqn:H2x];
    intros <-;
    destruct l1 as [| [| l1]]; try lia.
  - (* 2 chosen over 1 over 0, with R(0,0) = R(2,2) *)
    rewrite E in H10.
    pose proof (sltb_trans _ _ _ H10 H2x) as C.
    rewrite sltb_irrefl in C. discriminate.
  - rewrite E, sltb_irrefl in H2x. discriminate.
  - rewrite E, sltb_irrefl in H10. discriminate.
  - rewrite E, sltb_irrefl in H2x. discriminate.
  - rewrite E in H10. rewrite H2x in H10. discriminate.
Qed.

Lemma sltb_asym `{!ScalarOrder T} (x y : T) :
  sltb x y = true -> sltb y x = false.
Proof.
  intros Hxy. destruct (sltb y x) eqn:Hyx; [| reflexivity].
  pose proof (sltb_trans _ _ _ Hxy Hyx) as C.
  rewrite sltb_irrefl in C. discriminate.
Qed.

(** No diagonal entry strictly exceeds the chosen one. *)
Lemma select_index_maximal `{!ScalarOrder T} (m : array T) (l : nat) :
  (l < 3)%nat ->
  (coeff m l l >? coeff m (select_index m) (select_index m)) = false.
Proof.
  intros Hl. unfold select_index.
  destruct (coeff m 1 1 >? coeff m 0 0) eqn:H10;
    [destruct (coeff m 2 2 >? coeff m 1 1) eqn:H2x
    | destruct (coeff m 2 2 >? coeff m 0 0) eqn:H2x];
    destruct (lt_3_cases Hl) as [-> | [-> | ->]];
    try apply sltb_irrefl; try assumption;
    try (apply sltb_asym; assumption).
  - apply sltb_asym. exact (sltb_trans _ _ _ H10 H2x).
  - destruct (coeff m 1 1 >? coeff m 2 2) eqn:H12; [| reflexivity].
    rewrite (sltb_trans _ _ _ H2x H12) in H10. discriminate.
Qed.
End FunctorFacts.

(** ** The functor on concrete matrices, at [double] *)

(** Positive trace: the quarter turn about z. *)
Example rot2quat_quarter_z :
  map (snd (rot2quat Fquarter_z Fgarbage)) [0; 1; 2; 3]%nat
  = [0; 0; 0x1.6a09e667f3bccp-1; 7]%float.
Proof. vm_compute. reflexivity. Qed.

(** Non-positive trace, index 2, real part zero: nothing is negated. *)
Example rot2quat_pi_z :
  select_index Fpi_z = 2%nat
  /\ snd (diag_branch Fpi_z Fgarbage) = 0%float
  /\ map (snd (rot2quat Fpi_z Fgarbage)) [0; 1; 2; 3]%nat
     = [0; 0; 1; 7]%float.
Proof. vm_compute. repeat split; reflexivity. Qed.

(** Non-positive trace, all diagonal entries equal (index 0), negative real
    part: the three components are negated. *)
Example rot2quat_third :
  select_index Fthird = 0%nat
  /\ snd (diag_branch Fthird Fgarbage) = (-0.5)%float
  /\ map (fst (diag_branch Fthird Fgarbage)) [0; 1; 2; 3]%nat
     = [0.5; 0.5; 0.5; 7]%float
  /\ map (snd (rot2quat Fthird Fgarbage)) [0; 1; 2; 3]%nat
     = [-0.5; -0.5; -0.5; 7]%float.
Proof. vm_compute. repeat split; reflexivity. Qed.

(** Ties on the diagonal go to the smaller index. *)
Example select_index_ties :
  select_index (of_list 0%float [2; 0; 0; 0; 2; 0; 0; 0; 2]%float) = 0%nat
  /\ select_index (of_list 0%float [1; 0; 0; 0; 2; 0; 0; 0; 2]%float) = 1%nat.
Proof. vm_compute. split; reflexivity. Qed.

(** A numeric evaluation into a workspace that was never sized is refused,
    and the vertices are as before. *)
Example evaluateNumeric_unsized :
  snd (evaluateNumeric point_oplus Fedge emptyWorkspace 0.5%float Fpoints)
  = None
  /\ map (fst (evaluateNumeric point_oplus Fedge emptyWorkspace 0.5%float
                 Fpoints)) [0; 1]%nat
     = map Fpoints [0; 1]%nat.
Proof. vm_compute. split; reflexivity. Qed.

(** ** The order laws at the two instances *)

Lemma Rltb_true (x y : R) : Rltb x y = true <-> (x < y)%R.
Proof. unfold Rltb. destruct (Rlt_dec x y); split; (discriminate || tauto). Qed.

Lemma Rltb_false (x y : R) : Rltb x y = false <-> (y <= x)%R.
Proof.
  unfold Rltb. destruct (Rlt_dec x y); split; intros; (discriminate || lra || reflexivity).
Qed.

#[export] Instance ScalarOrder_R : ScalarOrder R.
Proof.
  split; cbn [sltb Scalar_R].
  - intros x. apply Rltb_false. lra.
  - intros x y z Hxy Hyz. apply Rltb_true in Hxy, Hyz. apply Rltb_true. lra.
Qed.

Lemma SFltb_irrefl (x : spec_float) : SFltb x x = false.
Proof.
  unfold SFltb, SFcompare.
  destruct x as [s | s | | s m e]; try reflexivity.
  - now destruct s.
  - rewrite Z.compare_refl.
    change (Pos.compare_cont Eq m m) with (Pos.compare m m).
    rewrite Pos.compare_refl. now destruct s.
Qed.

Lemma SFltb_trans (x y z : spec_float) :
  SFltb x y = true -> SFltb y z = true -> SFltb x z = true.
Proof.
  unfold SFltb, SFcompare.
  destruct x as [sx | sx | | sx mx ex], y as [sy | sy | | sy my ey],
    z as [sz | sz | | sz mz ez];
    try destruct sx; try destruct sy; try destruct sz;
    try discriminate; try reflexivity;
    change (Pos.compare_cont Eq mx my) with (Pos.compare mx my);
    change (Pos.compare_cont Eq my mz) with (Pos.compare my mz);
    change (Pos.compare_cont Eq mx mz) with (Pos.compare mx mz);
    destruct (Z.compare_spec ex ey), (Z.compare_spec ey ez),
      (Z.compare_spec ex ez);
    try discriminate; try reflexivity; try lia;
    destruct (Pos.compare_spec mx my), (Pos.compare_spec my mz),
      (Pos.compare_spec mx mz);
    cbn; try discriminate; try reflexivity; lia.
Qed.

#[export] Instance ScalarOrder_double : ScalarOrder float.
Proof.
  split; cbn [sltb Scalar_double]; intros; rewrite ltb_spec in *.
  - apply SFltb_irrefl.
  - eapply SFltb_trans; eassumption.
Qed.

(** On [double] both zeros compare equal to zero and neither is below it. *)
Lemma double_zero_not_negative (w : float) :
  PrimFloat.eqb w 0%float = true -> PrimFloat.ltb w 0%float = false.
Proof.
  rewrite FloatAxioms.eqb_spec, FloatAxioms.ltb_spec. unfold SFeqb, SFltb.
  destruct (SFcompare (Prim2SF w) (Prim2SF 0)) as [[| |] |];
    (discriminate || reflexivity).
Qed.

(** *** The algebra of one diagonal case

    The nine entries are named relative to a cyclic arrangement [(i, j, k)]
    of the indices; [x], [y], [z] are the quaternion components along
    [i], [j], [k]. *)

Section DiagonalCase.
Local Open Scope R_scope.
Variables rii rji rki rij rjj rkj rik rjk rkk : R.
Hypothesis Hii : rii * rii + rji * rji + rki * rki = 1.
Hypothesis Hjj : rij * rij + rjj * rjj + rkj * rkj = 1.
Hypothesis Hkk : rik * rik + rjk * rjk + rkk * rkk = 1.
Hypothesis Hij : rii * rij + rji * rjj + rki * rkj = 0.
Hypothesis Hik : rii * rik + rji * rjk + rki * rkk = 0.
Hypothesis Hjk : rij * rik + rjj * rjk + rkj * rkk = 0.
Hypothesis Hdet :
  rii * (rjj * rkk - rjk * rkj) - rij * (rji * rkk - rjk * rki)
  + rik * (rji * rkj - rjj * rki) = 1.

Local Abbreviation p := (rii - rjj - rkk + 1).

Lemma sq_sum_ij : (rji + rij) * (rji + rij) = p * (rjj - rii - rkk + 1).
Proof. nsatz. Qed.

Lemma sq_sum_ik : (rki + rik) * (rki + rik) = p * (rkk - rii - rjj + 1).
Proof. nsatz. Qed.

Lemma sq_diff_jk : (rkj - rjk) * (rkj - rjk) = p * (rii + rjj + rkk + 1).
Proof. nsatz. Qed.

Lemma cross_wz : (rkj - rjk) * (rki + rik) = p * (rji - rij).
Proof. nsatz. Qed.

Lemma cross_wy : (rkj - rjk) * (rji + rij) = p * (rik - rki).
Proof. nsatz. Qed.

Lemma cross_yz : (rji + rij) * (rki + rik) = p * (rkj + rjk).
Proof. nsatz. Qed.

Hypothesis Hp : 0 < p.

Local Abbreviation t := (sqrt p).
Local Abbreviation s := (1 / 2 / t).
Local Abbreviation x := (1 / 2 * t).
Local Abbreviation y := ((rji + rij) * s).
Local Abbreviation z := ((rki + rik) * s).
Local Abbreviation w := ((rkj - rjk) * s).

Lemma t_pos : 0 < t.
Proof. now apply sqrt_lt_R0. Qed.

Lemma t_sq : t * t = p.
Proof. apply sqrt_sqrt. lra. Qed.

(** Products of two components, with the square root eliminated. *)
Lemma xx_eq : x * x = p / 4.
Proof.
  replace (1 / 2 * t * (1 / 2 * t)) with (t * t / 4) by field.
  now rewrite t_sq.
Qed.

Lemma xy_eq : x * y = (rji + rij) / 4.
Proof. pose proof t_pos. field. lra. Qed.

Lemma xz_eq : x * z = (rki + rik) / 4.
Proof. pose proof t_pos. field. lra. Qed.

Lemma wx_eq : w * x = (rkj - rjk) / 4.
Proof. pose proof t_pos. field. lra. Qed.

Lemma s_sq : s * s = / (4 * p).
Proof.
  pose proof t_pos.
  replace (4 * p) with (4 * (t * t)) by (now rewrite t_sq).
  field. lra.
Qed.

Lemma yy_eq : y * y = (rjj - rii - rkk + 1) / 4.
Proof.
  replace ((rji + rij) * s * ((rji + rij) * s))
    with ((rji + rij) * (rji + rij) * (s * s)) by ring.
  rewrite s_sq, sq_sum_ij. field. lra.
Qed.

Lemma zz_eq : z * z = (rkk - rii - rjj + 1) / 4.
Proof.
  replace ((rki + rik) * s * ((rki + rik) * s))
    with ((rki + rik) * (rki + rik) * (s * s)) by ring.
  rewrite s_sq, sq_sum_ik. field. lra.
Qed.

Lemma ww_eq : w * w = (rii + rjj + rkk + 1) / 4.
Proof.
  replace ((rkj - rjk) * s * ((rkj - rjk) * s))
    with ((rkj - rjk) * (rkj - rjk) * (s * s)) by ring.
  rewrite s_sq, sq_diff_jk. field. lra.
Qed.

Lemma wz_eq : w * z = (rji - rij) / 4.
Proof.
  replace ((rkj - rjk) * s * ((rki + rik) * s))
    with ((rkj - rjk) * (rki + rik) * (s * s)) by ring.
  rewrite s_sq, cross_wz. field. lra.
Qed.

Lemma wy_eq : w * y = (rik - rki) / 4.
Proof.
  replace ((rkj - rjk) * s * ((rji + rij) * s))
    with ((rkj - rjk) * (rji + rij) * (s * s)) by ring.
  rewrite s_sq, cross_wy. field. lra.
Qed.

Lemma yz_eq : y * z = (rkj + rjk) / 4.
Proof.
  replace ((rji + rij) * s * ((rki + rik) * s))
    with ((rji + rij) * (rki + rik) * (s * s)) by ring.
  rewrite s_sq, cross_yz. field. lra.
Qed.

(** The quaternion [(w, x, y, z)] has unit norm and reproduces all nine
    entries. *)
Lemma diagonal_case_quaternion :
  w * w + x * x + y * y + z * z = 1
  /\ (1 - 2 * (y * y + z * z) = rii
      /\ 2 * (x * y - w * z) = rij
      /\ 2 * (x * z + w * y) = rik)
  /\ (2 * (x * y + w * z) = rji
      /\ 1 - 2 * (x * x + z * z) = rjj
      /\ 2 * (y * z - w * x) = rjk)
  /\ (2 * (x * z - w * y) = rki
      /\ 2 * (y * z + w * x) = rkj
      /\ 1 - 2 * (x * x + y * y) = rkk).
Proof.
  rewrite ww_eq, xx_eq, yy_eq, zz_eq, xy_eq, xz_eq, wx_eq, wz_eq, wy_eq,
    yz_eq.
  repeat split; lra.
Qed.
End DiagonalCase.

(** ** The functor at the real numbers *)

Ltac scalar_R :=
  cbn [s0 s1 shalf sm1 sadd ssub smul sdiv ssqrt sltb Scalar_R] in *.

Section FunctorOverR.
Local Open Scope R_scope.

(** The chosen diagonal entry is a maximum of the diagonal, and every
    diagonal entry at a smaller index is strictly below it. *)
Lemma select_index_max (m : array R) (l : nat) :
  (l < 3)%nat -> coeff m l l <= coeff m (select_index m) (select_index m).
Proof.
  intros Hl. unfold select_index. scalar_R.
  destruct (Rltb (coeff m 0 0) (coeff m 1 1)) eqn:H10;
    [destruct (Rltb (coeff m 1 1) (coeff m 2 2)) eqn:H2x
    | destruct (Rltb (coeff m 0 0) (coeff m 2 2)) eqn:H2x];
    rewrite ?Rltb_true, ?Rltb_false in *;
    destruct (lt_3_cases Hl) as [-> | [-> | ->]]; lra.
Qed.

Lemma select_index_first (m : array R) (l : nat) :
  (l < select_index m)%nat ->
  coeff m l l < coeff m (select_index m) (select_index m).
Proof.
  unfold select_index. scalar_R.
  destruct (Rltb (coeff m 0 0) (coeff m 1 1)) eqn:H10;
    [destruct (Rltb (coeff m 1 1) (coeff m 2 2)) eqn:H2x
    | destruct (Rltb (coeff m 0 0) (coeff m 2 2)) eqn:H2x];
    rewrite ?Rltb_true, ?Rltb_false in *; intros Hl;
    destruct l as [| [| l]]; try lia; lra.
Qed.

(** With a non-positive trace the argument of the square root is at least
    one, whatever the matrix. *)
Lemma diag_arg_ge_1 (m : array R) :
  (trace m >? s0)%sc = false -> 1 <= diag_arg m (select_index m).
Proof.
  intros Ht. unfold trace in Ht. scalar_R. apply Rltb_false in Ht.
  pose proof (select_index_max m (l := 0) ltac:(lia)) as M0.
  pose proof (select_index_max m (l := 1) ltac:(lia)) as M1.
  pose proof (select_index_max m (l := 2) ltac:(lia)) as M2.
  unfold diag_arg, next_index. scalar_R.
  destruct (select_index_cases m) as [E | [E | E]]; rewrite E in *;
    cbn [Nat.add Nat.modulo Nat.divmod fst snd Nat.sub]; lra.
Qed.

Lemma sqrt_diag_arg_pos (m : array R) :
  (trace m >? s0)%sc = false -> 0 < sqrt (diag_arg m (select_index m)).
Proof.
  intros Ht. apply sqrt_lt_R0. pose proof (diag_arg_ge_1 m Ht). lra.
Qed.

Lemma sqrt_trace_pos (m : array R) :
  (trace m >? s0)%sc = true -> 0 < sqrt (trace m + 1).
Proof.
  intros Ht. scalar_R. apply Rltb_true in Ht. apply sqrt_lt_R0. lra.
Qed.

(** Both quaternions of an antipodal pair have the same rotation matrix. *)
Lemma represents_antipodal (w : R) (q q' m : array R) :
  represents w q m ->
  (forall l : nat, (l < 3)%nat -> q' l = q l * - 1) ->
  represents (w * - 1) q' m.
Proof.
  intros [Hn Hm] Hq.
  pose proof (Hq 0%nat ltac:(lia)) as Q0.
  pose proof (Hq 1%nat ltac:(lia)) as Q1.
  pose proof (Hq 2%nat ltac:(lia)) as Q2.
  split.
  - rewrite Q0, Q1, Q2. rewrite <- Hn. ring.
  - intros r c Hr Hc. rewrite <- (Hm r c Hr Hc).
    destruct (lt_3_cases Hr) as [-> | [-> | ->]];
      destruct (lt_3_cases Hc) as [-> | [-> | ->]];
      unfold quat_to_matrix; cbv zeta; rewrite ?Q0, ?Q1, ?Q2; ring.
Qed.

(** A unit quaternion with non-negative real part has the real part the
    manifold convention implies. *)
Lemma implied_real_part_unique (w : R) (q : array R) :
  0 <= w ->
  w * w + q 0%nat * q 0%nat + q 1%nat * q 1%nat + q 2%nat * q 2%nat = 1 ->
  implied_real_part q = w.
Proof.
  intros Hw Hn. unfold implied_real_part.
  apply sqrt_lem_1; [nra | exact Hw | lra].
Qed.

(** On a rotation matrix with non-positive trace, the else branch computes
    (before the sign normalisation) a unit quaternion of that matrix. *)
Lemma diag_branch_represents (m q : array R) :
  is_rotation m -> (trace m >? s0)%sc = false ->
  represents (snd (diag_branch m q)) (fst (diag_branch m q)) m.
Proof.
  intros [Ho Hd] Ht.
  pose proof (diag_arg_ge_1 m Ht) as Hp.
  pose proof (Ho 0 0 ltac:(lia) ltac:(lia))%nat as O00.
  pose proof (Ho 0 1 ltac:(lia) ltac:(lia))%nat as O01.
  pose proof (Ho 0 2 ltac:(lia) ltac:(lia))%nat as O02.
  pose proof (Ho 1 1 ltac:(lia) ltac:(lia))%nat as O11.
  pose proof (Ho 1 2 ltac:(lia) ltac:(lia))%nat as O12.
  pose proof (Ho 2 2 ltac:(lia) ltac:(lia))%nat as O22.
  unfold col_dot in *. cbn [Nat.eqb] in *. unfold det in Hd.
  unfold diag_branch, diag_arg, next_index in *. cbn [fst snd].
  scalar_R.
  destruct (select_index_cases m) as [E | [E | E]]; rewrite E in *;
    cbn [Nat.add Nat.modulo Nat.divmod fst snd Nat.sub] in *.
  - destruct (@diagonal_case_quaternion
                (coeff m 0 0) (coeff m 1 0) (coeff m 2 0)
                (coeff m 0 1) (coeff m 1 1) (coeff m 2 1)
                (coeff m 0 2) (coeff m 1 2) (coeff m 2 2))
      as (Hn & (A1 & A2 & A3) & (B1 & B2 & B3) & (C1 & C2 & C3));
      try lra.
    split.
    + unfold store; cbn [Nat.eqb]. lra.
    + intros r c Hr Hc.
      destruct (lt_3_cases Hr) as [-> | [-> | ->]];
        destruct (lt_3_cases Hc) as [-> | [-> | ->]];
        unfold quat_to_matrix, store; cbn [Nat.eqb]; lra.
  - destruct (@diagonal_case_quaternion
                (coeff m 1 1) (coeff m 2 1) (coeff m 0 1)
                (coeff m 1 2) (coeff m 2 2) (coeff m 0 2)
                (coeff m 1 0) (coeff m 2 0) (coeff m 0 0))
      as (Hn & (A1 & A2 & A3) & (B1 & B2 & B3) & (C1 & C2 & C3));
      try lra.
    split.
    + unfold store; cbn [Nat.eqb]. lra.
    + intros r c Hr Hc.
      destruct (lt_3_cases Hr) as [-> | [-> | ->]];
        destruct (lt_3_cases Hc) as [-> | [-> | ->]];
        unfold quat_to_matrix, store; cbn [Nat.eqb]; lra.
  - destruct (@diagonal_case_quaternion
                (coeff m 2 2) (coeff m 0 2) (coeff m 1 2)
                (coeff m 2 0) (coeff m 0 0) (coeff m 1 0)
                (coeff m 2 1) (coeff m 0 1) (coeff m 1 1))
      as (Hn & (A1 & A2 & A3) & (B1 & B2 & B3) & (C1 & C2 & C3));
      try lra.
    split.
    + unfold store; cbn [Nat.eqb]. lra.
    + intros r c Hr Hc.
      destruct (lt_3_cases Hr) as [-> | [-> | ->]];
        destruct (lt_3_cases Hc) as [-> | [-> | ->]];
        unfold quat_to_matrix, store; cbn [Nat.eqb]; lra.
Qed.
End FunctorOverR.

(** ** The statements about the functor *)

Local Open Scope scalar_scope.

(** C3: when the trace is positive, the three output components are the
    antisymmetric differences [R(2,1)-R(1,2)], [R(0,2)-R(2,0)],
    [R(1,0)-R(0,1)], each multiplied by [0.5/sqrt(trace(R)+1)].  This holds
    at every scalar type and for every matrix, rotation or not. *)
Theorem rot2quat_positive_trace {T : Type} `{Scalar T} (m q : array T) :
  (trace m >? s0) = true ->
  let scale := shalf / ssqrt (trace m + s1) in
  let out := snd (rot2quat m q) in
  out 0%nat = (coeff m 2 1 - coeff m 1 2) * scale
  /\ out 1%nat = (coeff m 0 2 - coeff m 2 0) * scale
  /\ out 2%nat = (coeff m 1 0 - coeff m 0 1) * scale.
Proof.
  intros Ht. cbv zeta. rewrite (rot2quat_trace m q Ht). cbn [snd].
  repeat split; reflexivity.
Qed.

Lemma rot2quat_positive_trace_witness :
  (trace Fquarter_z >? s0) = true
  /\ snd (rot2quat Fquarter_z Fgarbage) 2%nat
     = (coeff Fquarter_z 1 0 - coeff Fquarter_z 0 1)
       * (shalf / ssqrt (trace Fquarter_z + s1)).
Proof.
  assert (Ht : (trace Fquarter_z >? s0) = true) by (vm_compute; reflexivity).
  split; [exact Ht |].
  destruct (rot2quat_positive_trace Fquarter_z Fgarbage Ht) as (_ & _ & E).
  exact E.
Defined.

(** C4: when the trace is not positive, the index [i] is the result of the
    scan 0, 1, 2 in which an index replaces the running maximum only when its
    diagonal entry strictly exceeds it, so that no diagonal entry strictly
    exceeds the chosen one and of two equal diagonal entries the one at the
    larger index is never chosen; [j = (i+1)%3],
    [k = (j+1)%3]; before the sign normalisation component [i] is
    [0.5*sqrt(a)] with [a = R(i,i)-R(j,j)-R(k,k)+1], components [j] and [k]
    are [(R(j,i)+R(i,j))] and [(R(k,i)+R(i,k))] times [0.5/sqrt(a)], and the
    real part is [(R(k,j)-R(j,k))] times [0.5/sqrt(a)]; the output is the
    sign normalisation of these. *)
Theorem rot2quat_diagonal_branch {T : Type} `{ScalarOrder T} (m q : array T) :
  (trace m >? s0) = false ->
  let i := select_index m in
  let j := next_index i in
  let k := next_index j in
  let a := coeff m i i - coeff m j j - coeff m k k + s1 in
  let scale := shalf / ssqrt a in
  let qu := fst (diag_branch m q) in
  let w := snd (diag_branch m q) in
  i = spec_running_max_index (fun l => coeff m l l)
  /\ (i < 3)%nat
  /\ (forall l : nat, (l < 3)%nat -> (coeff m l l >? coeff m i i) = false)
  /\ (forall l1 l2 : nat, (l1 < l2 < 3)%nat ->
        coeff m l1 l1 = coeff m l2 l2 -> i <> l2)
  /\ j = ((i + 1) mod 3)%nat /\ k = ((j + 1) mod 3)%nat
  /\ qu i = shalf * ssqrt a
  /\ qu j = (coeff m j i + coeff m i j) * scale
  /\ qu k = (coeff m k i + coeff m i k) * scale
  /\ w = (coeff m k j - coeff m j k) * scale
  /\ snd (rot2quat m q) = normalize_manifold (qu, w).
Proof.
  intros Ht. cbv zeta.
  destruct (diag_branch_cells m q) as (Ei & Ej & Ek & Ew).
  split; [apply select_index_scan |].
  split; [apply select_index_lt |].
  split; [intros l Hl; now apply select_index_maximal |].
  split; [intros l1 l2 [H12 H2] E; now apply (select_index_tie m H12 H2) |].
  split; [reflexivity |]. split; [reflexivity |].
  split; [exact Ei |]. split; [exact Ej |]. split; [exact Ek |].
  split; [exact Ew |].
  rewrite (rot2quat_diag m q Ht). cbn [snd].
  now destruct (diag_branch m q).
Qed.

Lemma rot2quat_diagonal_branch_witness :
  (trace Fpi_z >? s0) = false
  /\ select_index Fpi_z = 2%nat
  /\ select_index Fpi_z = spec_running_max_index (fun l => coeff Fpi_z l l)
  /\ fst (diag_branch Fpi_z Fgarbage) (select_index Fpi_z)
     = shalf * ssqrt (coeff Fpi_z 2 2 - coeff Fpi_z 0 0 - coeff Fpi_z 1 1 + s1).
Proof.
  assert (Ht : (trace Fpi_z >? s0) = false) by (vm_compute; reflexivity).
  split; [exact Ht |]. split; [vm_compute; reflexivity |].
  destruct (rot2quat_diagonal_branch Fpi_z Fgarbage Ht)
    as (Ei & _ & _ & _ & _ & _ & Eq & _).
  split; [exact Ei | exact Eq].
Defined.

(** C5: in the branch of non-positive trace, when the real part [w] computed
    there is negative every one of the three output components is the
    computed component times [-1]; the real part that goes with the output
    ([w] negated along with it) is never negative; and on a rotation matrix
    the output, with that real part, is a unit quaternion of the matrix whose
    real part is the one the manifold convention implies. *)
Theorem rot2quat_nonnegative_real_part (m q : array R) :
  (trace m >? s0) = false ->
  let qu := fst (diag_branch m q) in
  let w := snd (diag_branch m q) in
  let out := snd (rot2quat m q) in
  let w_out := if w <? s0 then w * sm1 else w in
  ((w < 0)%R -> forall l : nat, (l < 3)%nat -> out l = qu l * sm1)
  /\ (0 <= w_out)%R
  /\ (is_rotation m ->
      represents w_out out m /\ implied_real_part out = w_out).
Proof.
  intros Ht. cbv zeta. rewrite (rot2quat_diag m q Ht). cbn [snd].
  rewrite normalize_manifold_eta.
  pose proof (fun H => diag_branch_represents q H Ht) as Hrep.
  destruct (diag_branch m q) as [qu w]. cbn [fst snd] in *. scalar_R.
  destruct (Rltb w 0) eqn:Hw;
    [apply Rltb_true in Hw | apply Rltb_false in Hw].
  - assert (Hneg : forall l : nat, (l < 3)%nat ->
                     negate_all qu l = (qu l * - 1)%R).
    { intros l Hl. rewrite negate_all_spec.
      destruct (lt_3_cases Hl) as [-> | [-> | ->]]; reflexivity. }
    split; [intros _; exact Hneg |]. split; [lra |].
    intros Hrot.
    pose proof (@represents_antipodal w qu (negate_all qu) m (Hrep Hrot) Hneg)
      as Hr.
    split; [exact Hr |].
    apply implied_real_part_unique; [lra | apply Hr].
  - split; [intros C; lra |]. split; [exact Hw |].
    intros Hrot. split; [exact (Hrep Hrot) |].
    apply implied_real_part_unique; [exact Hw | apply (Hrep Hrot)].
Qed.

Ltac entries_R :=
  unfold col_dot, det, trace, diag_arg, next_index, coeff, of_list;
  cbn [nth Nat.add Nat.mul Nat.eqb Nat.modulo Nat.divmod fst snd Nat.sub];
  scalar_R.

Lemma trace_Rthird : (trace Rthird >? s0) = false.
Proof. unfold Rthird. entries_R. apply Rltb_false. lra. Qed.

Lemma is_rotation_Rthird : is_rotation Rthird.
Proof.
  split.
  - intros a b Ha Hb.
    destruct (lt_3_cases Ha) as [-> | [-> | ->]];
      destruct (lt_3_cases Hb) as [-> | [-> | ->]];
      unfold Rthird; entries_R; lra.
  - unfold Rthird. entries_R. lra.
Qed.

Lemma rot2quat_nonnegative_real_part_witness :
  (trace Rthird >? s0) = false
  /\ is_rotation Rthird
  /\ represents (implied_real_part (snd (rot2quat Rthird (fun _ => 7%R))))
       (snd (rot2quat Rthird (fun _ => 7%R))) Rthird.
Proof.
  split; [exact trace_Rthird |]. split; [exact is_rotation_Rthird |].
  destruct (rot2quat_nonnegative_real_part Rthird (fun _ => 7%R) trace_Rthird)
    as (_ & _ & Hrep).
  destruct (Hrep is_rotation_Rthird) as [Hr Hi].
  rewrite Hi. exact Hr.
Defined.

(** C9: over the reals, with a non-positive trace the argument
    [R(i,i)-R(j,j)-R(k,k)+1] of the square root at the selected index is at
    least one, hence positive, and its square root, the divisor of [0.5/t],
    is positive; with a positive trace the divisor [sqrt(trace+1)] is
    positive as well; the call returns [true], and the three output cells do
    not depend on what they held before the call.  All of this holds for
    every real matrix, in particular for every rotation matrix. *)
Theorem rot2quat_total (m q q' : array R) :
  ((trace m >? s0) = false ->
     (0 < diag_arg m (select_index m))%R
     /\ (0 < ssqrt (diag_arg m (select_index m)))%R
     /\ ssqrt (diag_arg m (select_index m)) <> 0%R)
  /\ ((trace m >? s0) = true ->
        (0 < ssqrt (trace m + s1))%R /\ ssqrt (trace m + s1) <> 0%R)
  /\ fst (rot2quat m q) = true
  /\ (forall l : nat, (l < 3)%nat ->
        snd (rot2quat m q) l = snd (rot2quat m q') l).
Proof.
  split; [| split; [| split]].
  - intros Ht. pose proof (diag_arg_ge_1 m Ht).
    pose proof (sqrt_diag_arg_pos m Ht). scalar_R.
    repeat split; lra.
  - intros Ht. pose proof (sqrt_trace_pos m Ht). scalar_R. split; lra.
  - unfold rot2quat. now destruct (trace m >? s0).
  - intros l Hl. unfold rot2quat. destruct (trace m >? s0); cbn [snd].
    + now apply trace_branch_overwrites.
    + rewrite !normalize_manifold_eta.
      destruct (diag_branch_overwrites m q q' Hl) as [Eq Ew].
      rewrite Ew. destruct (snd (diag_branch m q') <? s0); [| exact Eq].
      rewrite !negate_all_spec.
      destruct (l <? 3)%nat; now rewrite Eq.
Qed.

Lemma rot2quat_total_witness :
  (trace Rthird >? s0) = false
  /\ is_rotation Rthird
  /\ (0 < diag_arg Rthird (select_index Rthird))%R
  /\ fst (rot2quat Rthird (fun _ => 7%R)) = true.
Proof.
  split; [exact trace_Rthird |]. split; [exact is_rotation_Rthird |].
  destruct (rot2quat_total Rthird (fun _ => 7%R) (fun _ => 0%R))
    as (Hd & _ & Hb & _).
  destruct (Hd trace_Rthird) as (Hp & _).
  split; [exact Hp | exact Hb].
Defined.

(** C10: in the branch of non-positive trace, when the computed real part [w]
    is exactly zero the test [w < 0] is false, nothing is negated, and the
    output array is the array as the three stores left it; more generally
    nothing is negated whenever [w < 0] is false. *)
Theorem rot2quat_zero_real_part {T : Type} `{ScalarOrder T} (m q : array T) :
  (trace m >? s0) = false ->
  let qu := fst (diag_branch m q) in
  let w := snd (diag_branch m q) in
  (w = s0 -> (w <? s0) = false /\ snd (rot2quat m q) = qu)
  /\ ((w <? s0) = false -> snd (rot2quat m q) = qu)
  /\ ((w <? s0) = true -> snd (rot2quat m q) = negate_all qu).
Proof.
  intros Ht. cbv zeta. rewrite (rot2quat_diag m q Ht). cbn [snd].
  rewrite normalize_manifold_eta.
  split; [| split].
  - intros ->. rewrite sltb_irrefl. split; reflexivity.
  - intros ->. reflexivity.
  - intros ->. reflexivity.
Qed.

Lemma rot2quat_zero_real_part_witness :
  (trace Fpi_z >? s0) = false
  /\ snd (diag_branch Fpi_z Fgarbage) = s0
  /\ snd (rot2quat Fpi_z Fgarbage) = fst (diag_branch Fpi_z Fgarbage).
Proof.
  assert (Ht : (trace Fpi_z >? s0) = false) by (vm_compute; reflexivity).
  assert (Hw : snd (diag_branch Fpi_z Fgarbage) = s0)
    by (vm_compute; reflexivity).
  split; [exact Ht |]. split; [exact Hw |].
  destruct (rot2quat_zero_real_part Fpi_z Fgarbage Ht) as (Hz & _ & _).
  exact (proj2 (Hz Hw)).
Defined.

(** ** The linearization layer: buffers and slots *)

Unset Implicit Arguments.

Lemma set_nth_length {A : Type} (l : list A) (n : nat) (x : A) :
  length (set_nth l n x) = length l.
Proof.
  revert n. induction l as [| h t IH]; intros [| n]; cbn; auto.
Qed.

Lemma nth_set_nth {A : Type} (l : list A) (n k : nat) (x d : A) :
  (n < length l)%nat ->
  nth k (set_nth l n x) d = if Nat.eqb k n then x else nth k l d.
Proof.
  revert n k. induction l as [| h t IH]; intros n k Hn; cbn in Hn; [lia |].
  destruct n as [| n], k as [| k]; cbn; try reflexivity.
  apply IH. lia.
Qed.

Section LinearizationFacts.
Context {T : Type} `{Scalar T}.
Local Open Scope scalar_scope.
Variable Estimate : Type.
Variable oplus : Estimate -> list T -> Estimate.

Local Abbreviation Vertices := (Vertices Estimate).
Local Abbreviation Edge := (@Edge T Estimate).
Local Abbreviation JacobianWorkspace := (@JacobianWorkspace T).
Local Abbreviation Mode := (@Mode T).
Local Abbreviation Request := (@Request T Estimate).

Lemma write_at_fits (buf : list T) (off : nat) (data : list T) :
  (off + length data <= length buf)%nat ->
  exists buf', write_at buf off data = Some buf'.
Proof.
  intros Hle. unfold write_at.
  destruct (Nat.leb_spec (off + length data) (length buf)); [eauto | lia].
Qed.

Lemma write_at_length (buf buf' : list T) (off : nat) (data : list T) :
  write_at buf off data = Some buf' -> length buf' = length buf.
Proof.
  unfold write_at.
  destruct (Nat.leb_spec (off + length data) (length buf)) as [Hle | ];
    [| discriminate].
  intros [= <-]. rewrite !length_app, length_firstn, length_skipn. lia.
Qed.

Lemma write_at_nth (buf buf' : list T) (off : nat) (data : list T)
    (k : nat) (d : T) :
  write_at buf off data = Some buf' ->
  nth k buf' d =
  if ((off <=? k) && (k <? off + length data))%nat
  then nth (k - off) data d
  else nth k buf d.
Proof.
  unfold write_at.
  destruct (Nat.leb_spec (off + length data) (length buf)) as [Hle | ];
    [| discriminate].
  intros [= <-].
  assert (Hf : length (firstn off buf) = off)
    by (rewrite length_firstn; lia).
  destruct (Nat.leb_spec off k) as [Hk | Hk]; cbn [andb].
  - rewrite app_nth2 by lia. rewrite Hf.
    destruct (Nat.ltb_spec k (off + length data)) as [Hk' | Hk'].
    + rewrite app_nth1 by lia. reflexivity.
    + rewrite app_nth2 by lia. rewrite nth_skipn. f_equal. lia.
  - rewrite app_nth1 by lia. rewrite nth_firstn.
    destruct (Nat.ltb_spec k off); [reflexivity | lia].
Qed.

Lemma write_slot_sizes (ws ws' : JacobianWorkspace) (slot off : nat)
    (data : list T) :
  write_slot ws slot off data = Some ws' ->
  maxNumVertices ws' = maxNumVertices ws
  /\ maxDimension ws' = maxDimension ws.
Proof.
  unfold write_slot.
  destruct (nth_error (buffers ws) slot) as [buf |]; [| discriminate].
  destruct (write_at buf off data) as [buf' |]; [| discriminate].
  intros [= <-]. split; reflexivity.
Qed.

Lemma write_slot_nth (ws ws' : JacobianWorkspace) (slot off : nat)
    (data : list T) (i k : nat) (d : T) :
  write_slot ws slot off data = Some ws' ->
  nth k (workspaceForVertex ws' i) d =
  if (Nat.eqb i slot && ((off <=? k) && (k <? off + length data)))%nat
  then nth (k - off) data d
  else nth k (workspaceForVertex ws i) d.
Proof.
  unfold write_slot, workspaceForVertex.
  destruct (nth_error (buffers ws) slot) as [buf |] eqn:Hb; [| discriminate].
  destruct (write_at buf off data) as [buf' |] eqn:Hw; [| discriminate].
  intros [= <-]. cbn [buffers].
  assert (Hs : (slot < length (buffers ws))%nat)
    by (apply nth_error_Some; congruence).
  rewrite nth_set_nth by exact Hs.
  destruct (Nat.eqb_spec i slot) as [-> | Hi]; cbn [andb]; [| reflexivity].
  rewrite (write_at_nth _ _ _ _ k d Hw).
  rewrite (nth_error_nth _ _ [] Hb). reflexivity.
Qed.

Lemma write_slot_allocated (ws ws' : JacobianWorkspace) (slot off : nat)
    (data : list T) :
  write_slot ws slot off data = Some ws' -> allocated ws -> allocated ws'.
Proof.
  intros Hw [Hn Hd].
  destruct (write_slot_sizes _ _ _ _ _ Hw) as [En Ed].
  revert Hw. unfold write_slot, allocated, workspaceForVertex in *.
  destruct (nth_error (buffers ws) slot) as [buf |] eqn:Hb; [| discriminate].
  destruct (write_at buf off data) as [buf' |] eqn:Hw; [| discriminate].
  intros [= <-]. cbn [buffers maxNumVertices maxDimension] in *.
  assert (Hs : (slot < length (buffers ws))%nat)
    by (apply nth_error_Some; congruence).
  split; [now rewrite set_nth_length |].
  intros i Hi. rewrite nth_set_nth by exact Hs.
  destruct (Nat.eqb_spec i slot) as [-> | _]; [| now apply Hd].
  rewrite (write_at_length _ _ _ _ Hw).
  rewrite <- (Hd slot Hi). now rewrite (nth_error_nth _ _ [] Hb).
Qed.

Lemma write_slot_fits (ws : JacobianWorkspace) (slot off : nat)
    (data : list T) :
  allocated ws -> (slot < maxNumVertices ws)%nat ->
  (off + length data <= maxDimension ws)%nat ->
  exists ws', write_slot ws slot off data = Some ws'.
Proof.
  intros [Hn Hd] Hs Hle. unfold write_slot.
  destruct (nth_error (buffers ws) slot) as [buf |] eqn:Hb.
  - pose proof (Hd slot Hs) as Hl. unfold workspaceForVertex in Hl.
    rewrite (nth_error_nth _ _ [] Hb) in Hl.
    destruct (write_at_fits buf off data) as [buf' ->]; [lia | eauto].
  - apply nth_error_None in Hb. lia.
Qed.

(** Reading back what was written. *)
Lemma map_nth_seq (l : list T) (d : T) :
  map (fun j => nth j l d) (seq 0 (length l)) = l.
Proof.
  apply (nth_ext _ _ d d); rewrite length_map, length_seq; [reflexivity |].
  intros n Hn.
  rewrite (nth_indep _ d (nth 0 l d))
    by (rewrite length_map, length_seq; exact Hn).
  rewrite (map_nth (fun j => nth j l d)), seq_nth by exact Hn.
  reflexivity.
Qed.

Lemma read_column_write (ws ws' : JacobianWorkspace) (slot0 c0 rows : nat)
    (col : list T) (slot c : nat) :
  write_slot ws slot0 (c0 * rows) col = Some ws' ->
  length col = rows ->
  read_column ws' slot rows c =
  if (Nat.eqb slot slot0 && Nat.eqb c c0)%bool then col
  else read_column ws slot rows c.
Proof.
  intros Hw Hl. unfold read_column.
  destruct (Nat.eqb_spec slot slot0) as [-> | Hs]; cbn [andb].
  - destruct (Nat.eqb_spec c c0) as [-> | Hc].
    + transitivity (map (fun j => nth j col s0) (seq 0 (length col)));
        [| apply map_nth_seq].
      rewrite Hl.
      apply map_ext_in. intros r Hr. apply in_seq in Hr.
      rewrite (write_slot_nth _ _ _ _ _ slot0 _ s0 Hw).
      rewrite Nat.eqb_refl. cbn [andb].
      destruct (Nat.leb_spec (c0 * rows) (c0 * rows + r)); [| lia].
      destruct (Nat.ltb_spec (c0 * rows + r) (c0 * rows + length col));
        [| lia].
      cbn [andb]. f_equal. lia.
    + apply map_ext_in. intros r Hr. apply in_seq in Hr.
      rewrite (write_slot_nth _ _ _ _ _ slot0 _ s0 Hw).
      rewrite Nat.eqb_refl. cbn [andb].
      destruct (Nat.leb_spec (c0 * rows) (c * rows + r));
        destruct (Nat.ltb_spec (c * rows + r) (c0 * rows + length col));
        cbn [andb]; try reflexivity.
      exfalso. nia.
  - apply map_ext_in. intros r Hr.
    rewrite (write_slot_nth _ _ _ _ _ slot _ s0 Hw).
    destruct (Nat.eqb_spec slot slot0); [contradiction | reflexivity].
Qed.

(** *** Vertices *)

Lemma same_vertices_refl (g : Vertices) : same_vertices g g.
Proof. intros id. reflexivity. Qed.

Lemma same_vertices_trans (g1 g2 g3 : Vertices) :
  same_vertices g1 g2 -> same_vertices g2 g3 -> same_vertices g1 g3.
Proof. intros H12 H23 id. now rewrite H12. Qed.

Lemma setEstimate_ext (g1 g2 : Vertices) (v : nat) (x : Estimate) :
  same_vertices g1 g2 ->
  same_vertices (setEstimate g1 v x) (setEstimate g2 v x).
Proof. intros E id. unfold setEstimate. now rewrite !E. Qed.

Lemma setEstimate_twice (g : Vertices) (v : nat) (x y : Estimate) :
  same_vertices (setEstimate (setEstimate g v x) v y) (setEstimate g v y).
Proof.
  intros id. unfold setEstimate. rewrite Nat.eqb_refl.
  destruct (Nat.eqb id v); reflexivity.
Qed.

Lemma setEstimate_restore (g : Vertices) (v : nat) :
  same_vertices (setEstimate g v (estimate (g v))) g.
Proof.
  intros id. unfold setEstimate.
  destruct (Nat.eqb_spec id v) as [-> | _]; [| reflexivity].
  now destruct (g v).
Qed.

Lemma error_ext (e : Edge) (g1 g2 : Vertices) :
  same_vertices g1 g2 -> error e g1 = error e g2.
Proof. intros E. unfold error. now rewrite !E. Qed.

Lemma central_difference_length (a b : list T) (eps : T) (n : nat) :
  length a = n -> length b = n -> length (central_difference a b eps) = n.
Proof.
  intros Ha Hb. unfold central_difference.
  rewrite length_map, length_combine. lia.
Qed.

(** *** One column of the numeric evaluation *)

Lemma numeric_column_refused (e : Edge) (eps : T) (slot c : nat)
    (g : Vertices) :
  numeric_column oplus e eps slot c (g, None) = (g, None).
Proof. reflexivity. Qed.

Lemma numeric_column_spec (e : Edge) (eps : T) (slot c : nat)
    (g g1 : Vertices) (ws1 : JacobianWorkspace) :
  same_vertices g1 g ->
  same_vertices (fst (numeric_column oplus e eps slot c (g1, Some ws1))) g
  /\ snd (numeric_column oplus e eps slot c (g1, Some ws1))
     = write_slot ws1 slot (c * errorDimension e)
         (numeric_column_value oplus e eps g slot c).
Proof.
  intros E. unfold numeric_column. cbn [fst snd]. split.
  - eapply same_vertices_trans; [apply setEstimate_twice |].
    eapply same_vertices_trans; [apply setEstimate_twice |].
    eapply same_vertices_trans; [apply setEstimate_restore | exact E].
  - f_equal. unfold numeric_column_value, perturbed_error.
    rewrite !E. f_equal.
    + apply error_ext. now apply setEstimate_ext.
    + apply error_ext.
      eapply same_vertices_trans; [apply setEstimate_twice |].
      now apply setEstimate_ext.
Qed.

Lemma numeric_fold_refused (e : Edge) (eps : T) (cols : list (nat * nat))
    (g : Vertices) :
  fold_left (fun acc sc => numeric_column oplus e eps (fst sc) (snd sc) acc)
    cols (g, None) = (g, None).
Proof. induction cols as [| sc cols IH]; [reflexivity | exact IH]. Qed.

Lemma numeric_column_value_length (e : Edge) (eps : T) (g : Vertices)
    (slot c : nat) :
  (forall a b : Estimate, length (computeError e a b) = errorDimension e) ->
  length (numeric_column_value oplus e eps g slot c) = errorDimension e.
Proof.
  intros Hwf. unfold numeric_column_value, perturbed_error, error.
  apply central_difference_length; apply Hwf.
Qed.

(** *** The columns, one after the other *)

Lemma columns_in (e : Edge) (g : Vertices) (slot c : nat) :
  In (slot, c) (columns e g) <->
  (slot < 2)%nat /\ (c < dimension (g (edge_vertex e slot)))%nat.
Proof.
  unfold columns. cbn [flat_map]. rewrite app_nil_r, in_app_iff, !in_map_iff.
  split.
  - intros [(c' & [= <- <-] & Hc) | (c' & [= <- <-] & Hc)];
      apply in_seq in Hc; split; lia.
  - intros [Hs Hc].
    destruct slot as [| [| slot]]; [left | right | lia];
      exists c; (split; [reflexivity | apply in_seq; lia]).
Qed.

Lemma columns_NoDup (e : Edge) (g : Vertices) : NoDup (columns e g).
Proof.
  unfold columns. cbn [flat_map]. rewrite app_nil_r.
  apply NoDup_app.
  - apply NoDup_map_NoDup_ForallPairs; [| apply seq_NoDup].
    intros x y _ _ [= ->]. reflexivity.
  - apply NoDup_map_NoDup_ForallPairs; [| apply seq_NoDup].
    intros x y _ _ [= ->]. reflexivity.
  - intros [s c] H0 H1. apply in_map_iff in H0, H1.
    destruct H0 as (? & [= <- _] & _), H1 as (? & [=] & _).
Qed.

Lemma numeric_fold_spec (e : Edge) (eps : T) (g : Vertices)
    (cols : list (nat * nat)) :
  (forall a b : Estimate, length (computeError e a b) = errorDimension e) ->
  forall (g1 : Vertices) (ws1 : JacobianWorkspace),
    same_vertices g1 g -> NoDup cols ->
    let r :=
      fold_left
        (fun acc sc => numeric_column oplus e eps (fst sc) (snd sc) acc)
        cols (g1, Some ws1) in
    same_vertices (fst r) g
    /\ forall ws' : JacobianWorkspace, snd r = Some ws' ->
         (forall slot c : nat, In (slot, c) cols ->
            read_column ws' slot (errorDimension e) c
            = numeric_column_value oplus e eps g slot c)
         /\ (forall slot c : nat, ~ In (slot, c) cols ->
               read_column ws' slot (errorDimension e) c
               = read_column ws1 slot (errorDimension e) c).
Proof.
  intros Hwf. induction cols as [| [s0' c0] cols IH]; intros g1 ws1 E Hnd.
  - cbn. split; [exact E |]. intros ws' [= <-].
    split; [intros ? ? [] | reflexivity].
  - cbn [fold_left fst snd].
    destruct (numeric_column_spec e eps s0' c0 g g1 ws1 E) as [E2 Hw].
    destruct (numeric_column oplus e eps s0' c0 (g1, Some ws1))
      as [g2 [ws2 |]]; cbn [fst snd] in E2, Hw.
    + inversion Hnd as [| ? ? Hnotin Hnd']; subst.
      destruct (IH g2 ws2 E2 Hnd') as [E' Hcols].
      split; [exact E' |]. intros ws' Hr.
      destruct (Hcols ws' Hr) as [Hin Hout].
      pose proof (fun slot c =>
        read_column_write ws1 ws2 s0' c0 (errorDimension e) _ slot c
          (eq_sym Hw) (numeric_column_value_length e eps g s0' c0 Hwf))
        as Hrw.
      split.
      * intros slot c [[= <- <-] | Hc]; [| now apply Hin].
        rewrite (Hout _ _ Hnotin), Hrw, !Nat.eqb_refl. reflexivity.
      * intros slot c Hnot.
        rewrite Hout by (intros C; apply Hnot; now right).
        rewrite Hrw.
        destruct (Nat.eqb_spec slot s0') as [-> | _]; [| reflexivity].
        destruct (Nat.eqb_spec c c0) as [-> | _]; [| reflexivity].
        exfalso. apply Hnot. now left.
    + rewrite numeric_fold_refused. cbn [fst snd].
      split; [exact E2 | discriminate].
Qed.

Lemma numeric_fold_succeeds (e : Edge) (eps : T) (g : Vertices)
    (cols : list (nat * nat)) :
  (forall a b : Estimate, length (computeError e a b) = errorDimension e) ->
  forall (g1 : Vertices) (ws1 : JacobianWorkspace),
    same_vertices g1 g -> allocated ws1 ->
    (forall slot c : nat, In (slot, c) cols ->
       (slot < maxNumVertices ws1)%nat
       /\ (c * errorDimension e + errorDimension e <= maxDimension ws1)%nat) ->
    exists ws' : JacobianWorkspace,
      snd (fold_left
             (fun acc sc => numeric_column oplus e eps (fst sc) (snd sc) acc)
             cols (g1, Some ws1)) = Some ws'
      /\ allocated ws'
      /\ maxNumVertices ws' = maxNumVertices ws1
      /\ maxDimension ws' = maxDimension ws1.
Proof.
  intros Hwf. induction cols as [| [s0' c0] cols IH]; intros g1 ws1 E Ha Hfit.
  - exists ws1. cbn. auto.
  - cbn [fold_left fst snd].
    destruct (numeric_column_spec e eps s0' c0 g g1 ws1 E) as [E2 Hw].
    destruct (Hfit s0' c0 (or_introl eq_refl)) as [Hs Hc].
    destruct (write_slot_fits ws1 s0' (c0 * errorDimension e)
                (numeric_column_value oplus e eps g s0' c0) Ha Hs)
      as [ws2 Hws2].
    { now rewrite numeric_column_value_length. }
    rewrite Hws2 in Hw.
    destruct (numeric_column oplus e eps s0' c0 (g1, Some ws1))
      as [g2 r2]; cbn [fst snd] in E2, Hw. subst r2.
    destruct (write_slot_sizes _ _ _ _ _ Hws2) as [En Ed].
    destruct (IH g2 ws2 E2 (write_slot_allocated _ _ _ _ _ Hws2 Ha))
      as (ws' & Hr & Ha' & En' & Ed').
    { intros slot c Hin. rewrite En, Ed. apply Hfit. now right. }
    exists ws'. split; [exact Hr |]. split; [exact Ha' |].
    split; [now rewrite En' | now rewrite Ed'].
Qed.

(** *** Blocks *)

Lemma map_seq_offset {B : Type} (f : nat -> B) (a len : nat) :
  map f (seq a len) = map (fun r => f (a + r)%nat) (seq 0 len).
Proof.
  revert f a. induction len as [| len IH]; intros f a; [reflexivity |].
  cbn [seq map]. rewrite Nat.add_0_r. f_equal.
  rewrite (IH f (S a)), (IH (fun r => f (a + r)%nat) 1%nat).
  apply map_ext. intros r. f_equal. lia.
Qed.

Lemma read_block_columns (ws : JacobianWorkspace) (i rows n : nat) :
  read_block ws i (rows * n) = flat_map (read_column ws i rows) (seq 0 n).
Proof.
  induction n as [| n IH].
  - rewrite Nat.mul_0_r. reflexivity.
  - rewrite seq_S, flat_map_app. cbn [flat_map]. rewrite app_nil_r, <- IH.
    replace (rows * S n)%nat with (rows * n + rows)%nat by lia.
    unfold read_block, read_column.
    rewrite seq_app, map_app. f_equal.
    rewrite map_seq_offset. apply map_ext. intros r. f_equal. lia.
Qed.

Lemma read_block_write_same (ws ws' : JacobianWorkspace) (slot : nat)
    (data : list T) :
  write_slot ws slot 0 data = Some ws' ->
  read_block ws' slot (length data) = data.
Proof.
  intros Hw. unfold read_block.
  transitivity (map (fun j => nth j data s0) (seq 0 (length data)));
    [| apply map_nth_seq].
  apply map_ext_in. intros j Hj. apply in_seq in Hj.
  rewrite (write_slot_nth _ _ _ _ _ slot _ s0 Hw), Nat.eqb_refl.
  cbn [andb Nat.leb].
  destruct (Nat.ltb_spec j (0 + length data)); [| lia].
  f_equal. lia.
Qed.

Lemma read_block_write_other (ws ws' : JacobianWorkspace) (slot off : nat)
    (data : list T) (i n : nat) :
  write_slot ws slot off data = Some ws' -> i <> slot ->
  read_block ws' i n = read_block ws i n.
Proof.
  intros Hw Hi. unfold read_block. apply map_ext. intros j.
  rewrite (write_slot_nth _ _ _ _ _ i _ s0 Hw).
  destruct (Nat.eqb_spec i slot); [contradiction | reflexivity].
Qed.

(** *** The two evaluations on a workspace that fits *)

Lemma evaluateAnalytic_spec (e : Edge) (ws : JacobianWorkspace)
    (g : Vertices) :
  allocated ws -> fits ws e g -> well_formed e g ->
  exists ws' : JacobianWorkspace,
    evaluateAnalytic e ws g = Some ws'
    /\ allocated ws'
    /\ maxNumVertices ws' = maxNumVertices ws
    /\ maxDimension ws' = maxDimension ws
    /\ forall slot : nat, (slot < 2)%nat ->
         read_block ws' slot (numElems e g slot) = analytic_block e g slot.
Proof.
  intros Ha (Hn & H0 & H1) [_ Hlen]. unfold evaluateAnalytic, analytic_block.
  set (J := linearizeOplus e _ _).
  destruct (Hlen (estimate (g (vertex_i e))) (estimate (g (vertex_j e))))
    as [L0 L1]. fold J in L0, L1.
  destruct (write_slot_fits ws 0 0 (fst J) Ha) as [ws1 W1]; [lia | lia |].
  rewrite W1.
  destruct (write_slot_sizes _ _ _ _ _ W1) as [En1 Ed1].
  pose proof (write_slot_allocated _ _ _ _ _ W1 Ha) as Ha1.
  destruct (write_slot_fits ws1 1 0 (snd J) Ha1) as [ws2 W2]; [lia | lia |].
  destruct (write_slot_sizes _ _ _ _ _ W2) as [En2 Ed2].
  exists ws2. split; [exact W2 |].
  split; [exact (write_slot_allocated _ _ _ _ _ W2 Ha1) |].
  split; [congruence |]. split; [congruence |].
  intros slot Hs. destruct slot as [| [| slot]]; [| | lia].
  - rewrite (read_block_write_other _ _ _ _ _ _ _ W2) by discriminate.
    rewrite <- L0. now apply (read_block_write_same ws ws1).
  - rewrite <- L1. now apply (read_block_write_same ws1 ws2).
Qed.

Lemma evaluateNumeric_spec (e : Edge) (ws : JacobianWorkspace) (eps : T)
    (g : Vertices) :
  allocated ws -> fits ws e g -> well_formed e g ->
  exists ws' : JacobianWorkspace,
    snd (evaluateNumeric oplus e ws eps g) = Some ws'
    /\ allocated ws'
    /\ maxNumVertices ws' = maxNumVertices ws
    /\ maxDimension ws' = maxDimension ws
    /\ forall slot : nat, (slot < 2)%nat ->
         read_block ws' slot (numElems e g slot)
         = numeric_block oplus e eps g slot.
Proof.
  intros Ha (Hn & H0 & H1) [Hwf _]. unfold evaluateNumeric.
  destruct (numeric_fold_succeeds e eps g (columns e g) Hwf g ws
              (same_vertices_refl g) Ha)
    as (ws' & Hr & Ha' & En & Ed).
  { intros slot c Hin. apply columns_in in Hin. destruct Hin as [Hs Hc].
    split; [lia |]. unfold numElems in H0, H1.
    destruct slot as [| [| slot]]; [| | lia]; cbn [edge_vertex] in *; nia. }
  exists ws'. split; [exact Hr |]. split; [exact Ha' |].
  split; [exact En |]. split; [exact Ed |].
  intros slot Hs.
  destruct (numeric_fold_spec e eps g (columns e g) Hwf g ws
              (same_vertices_refl g) (columns_NoDup e g)) as [_ Hcols].
  destruct (Hcols ws' Hr) as [Hin _].
  unfold numElems, numeric_block. rewrite read_block_columns.
  rewrite !flat_map_concat_map. f_equal. apply map_ext_in.
  intros c Hc. apply in_seq in Hc. apply Hin, columns_in. lia.
Qed.

Lemma numeric_fold_restores (e : Edge) (eps : T) (g : Vertices)
    (cols : list (nat * nat)) :
  forall (g1 : Vertices) (r : option JacobianWorkspace),
    same_vertices g1 g ->
    same_vertices
      (fst (fold_left
              (fun acc sc => numeric_column oplus e eps (fst sc) (snd sc) acc)
              cols (g1, r))) g.
Proof.
  induction cols as [| [s0' c0] cols IH]; intros g1 r E.
  - exact E.
  - cbn [fold_left fst snd]. destruct r as [ws1 |].
    + destruct (numeric_column_spec e eps s0' c0 g g1 ws1 E) as [E2 _].
      destruct (numeric_column oplus e eps s0' c0 (g1, Some ws1))
        as [g2 r2]. now apply IH.
    + rewrite numeric_column_refused. now apply IH.
Qed.

Lemma evaluateNumeric_restores (e : Edge) (ws : JacobianWorkspace) (eps : T)
    (g : Vertices) :
  same_vertices (fst (evaluateNumeric oplus e ws eps g)) g.
Proof. apply numeric_fold_restores, same_vertices_refl. Qed.

Lemma numElems_ext (e : Edge) (g1 g2 : Vertices) (i : nat) :
  same_vertices g1 g2 -> numElems e g1 i = numElems e g2 i.
Proof. intros E. unfold numElems. now rewrite E. Qed.

(** *** Sizing *)

Lemma allocate_allocated (ws : JacobianWorkspace) : allocated (allocate ws).
Proof.
  unfold allocated, allocate, workspaceForVertex.
  cbn [buffers maxNumVertices maxDimension].
  split; [apply repeat_length |].
  intros i Hi. rewrite nth_repeat_lt by exact Hi. apply repeat_length.
Qed.

Lemma fits_sizes (ws ws' : JacobianWorkspace) (e : Edge) (g : Vertices) :
  maxNumVertices ws' = maxNumVertices ws ->
  maxDimension ws' = maxDimension ws ->
  fits ws e g -> fits ws' e g.
Proof. unfold fits. intros -> ->. exact (fun F => F). Qed.

Lemma updateSize_fits (ws : JacobianWorkspace) (e : Edge) (g : Vertices) :
  fits (updateSize ws e g) e g.
Proof. unfold fits, updateSize. cbn [maxNumVertices maxDimension]. lia. Qed.

Lemma updateSize_keeps (ws : JacobianWorkspace) (e e' : Edge)
    (g g' : Vertices) :
  fits ws e g -> fits (updateSize ws e' g') e g.
Proof. unfold fits, updateSize. cbn [maxNumVertices maxDimension]. lia. Qed.

Lemma updateSize_fold_fits (graph : list (Edge * Vertices))
    (ws : JacobianWorkspace) (e : Edge) (g : Vertices) :
  fits ws e g \/ In (e, g) graph ->
  fits (fold_left (fun w eg => updateSize w (fst eg) (snd eg)) graph ws) e g.
Proof.
  revert ws. induction graph as [| [e' g'] graph IH]; intros ws Hor.
  - destruct Hor as [F | []]. exact F.
  - cbn [fold_left fst snd]. apply IH.
    destruct Hor as [F | [[= -> ->] | Hin]].
    + left. now apply updateSize_keeps.
    + left. apply updateSize_fits.
    + now right.
Qed.

Lemma sized_for_allocated (graph : list (Edge * Vertices)) :
  allocated (sized_for graph).
Proof. apply allocate_allocated. Qed.

Lemma sized_for_fits (graph : list (Edge * Vertices)) (e : Edge)
    (g : Vertices) :
  covered graph e g -> fits (sized_for graph) e g.
Proof.
  intros ([e0 g0] & Hin & H0 & H1). cbn [fst snd] in *.
  pose proof (updateSize_fold_fits graph emptyWorkspace e0 g0
                (or_intror Hin)) as (Fn & F0 & F1).
  unfold sized_for, fits, allocate. cbn [maxNumVertices maxDimension].
  repeat split; lia.
Qed.

(** *** The dispatcher and a pass of requests *)

Lemma evaluate_spec (mode : Mode) (e : Edge) (ws : JacobianWorkspace)
    (g : Vertices) :
  allocated ws -> fits ws e g -> well_formed e g ->
  exists ws' : JacobianWorkspace,
    snd (evaluate oplus mode e ws g) = Some ws'
    /\ allocated ws'
    /\ maxNumVertices ws' = maxNumVertices ws
    /\ maxDimension ws' = maxDimension ws
    /\ forall slot : nat, (slot < 2)%nat ->
         read_block ws' slot (numElems e g slot)
         = jacobian_block oplus mode e g slot.
Proof.
  intros Ha Hf Hwf. destruct mode as [| eps]; cbn [evaluate jacobian_block snd].
  - now apply evaluateAnalytic_spec.
  - now apply evaluateNumeric_spec.
Qed.

Lemma evaluate_all_spec (requests : list Request) :
  forall ws : JacobianWorkspace,
    allocated ws ->
    (forall rq : Request, In rq requests ->
       well_formed (snd (fst rq)) (snd rq) /\ fits ws (snd (fst rq)) (snd rq)) ->
    exists wsn : JacobianWorkspace,
      evaluate_all oplus requests ws = Some wsn
      /\ allocated wsn
      /\ maxNumVertices wsn = maxNumVertices ws
      /\ maxDimension wsn = maxDimension ws.
Proof.
  unfold evaluate_all.
  induction requests as [| [[mode e] g] requests IH]; intros ws Ha Hrq.
  - exists ws. cbn. auto.
  - cbn [fold_left fst snd].
    destruct (Hrq _ (or_introl eq_refl)) as [Hwf Hf]. cbn [fst snd] in Hwf, Hf.
    destruct (evaluate_spec mode e ws g Ha Hf Hwf)
      as (ws1 & -> & Ha1 & En & Ed & _).
    destruct (IH ws1 Ha1) as (wsn & Hr & Han & En' & Ed').
    { intros rq Hin. destruct (Hrq rq (or_intror Hin)) as [W F].
      split; [exact W |]. exact (fits_sizes ws ws1 _ _ En Ed F). }
    exists wsn. split; [exact Hr |]. split; [exact Han |].
    split; [now rewrite En' | now rewrite Ed'].
Qed.

(** *** The comparison of the test file *)

(** X10: on a workspace that is allocated and fits the edge,
    [evaluateJacobian] completes, leaves the vertices as they were, and the
    pairs it hands to [EXPECT_NEAR] are, slot by slot and cell by cell, the
    numeric block against the closed-form block: the copy taken between the
    two calls keeps the closed-form values out of reach of the numeric
    overwrite, and what the first argument held on entry is never read. *)
Lemma evaluateJacobian_compares (e : Edge) (eps : T)
    (jws nws : JacobianWorkspace) (g : Vertices) :
  allocated nws -> fits nws e g -> well_formed e g ->
  exists (g' : Vertices) (jws' nws' : JacobianWorkspace),
    evaluateJacobian oplus e eps jws nws g
    = Some (g', jws', nws',
            flat_map
              (fun i => combine (numeric_block oplus e eps g i)
                                (analytic_block e g i))
              [0; 1]%nat)
    /\ same_vertices g' g.
Proof.
  intros Ha Hf Hwf. unfold evaluateJacobian.
  destruct (evaluateAnalytic_spec e nws g Ha Hf Hwf)
    as (ws1 & -> & Ha1 & En & Ed & Hblock1).
  pose proof (fits_sizes nws ws1 e g En Ed Hf) as Hf1.
  destruct (evaluateNumeric_spec e ws1 eps g Ha1 Hf1 Hwf)
    as (ws2 & Hr & _ & _ & _ & Hblock2).
  pose proof (evaluateNumeric_restores e ws1 eps g) as E.
  destruct (evaluateNumeric oplus e ws1 eps g) as [g' r].
  cbn [fst snd] in Hr, E. subst r.
  exists g', ws1, ws2. split; [| exact E].
  cbn [flat_map]. rewrite !(numElems_ext e g' g _ E).
  rewrite !Hblock1, !Hblock2 by lia. reflexivity.
Qed.

(** ** The statements about the linearization layer *)

(** C7: the numeric evaluation leaves every vertex exactly as it was before
    the call, whether all columns were written or a write was refused; and
    when it completes, for each vertex slot of the edge and each tangent
    coordinate [c], column [c] of the block in that slot is the central
    difference [(e(+) - e(-)) / (2*eps)] of the errors with the vertex moved
    through [oplus] by [+eps] and by [-eps] along basis vector [c]. *)
Theorem evaluateNumeric_perturb_restore (e : Edge) (ws : JacobianWorkspace)
    (eps : T) (g : Vertices) :
  same_vertices (fst (evaluateNumeric oplus e ws eps g)) g
  /\ ((forall a b : Estimate, length (computeError e a b) = errorDimension e) ->
      forall ws' : JacobianWorkspace,
        snd (evaluateNumeric oplus e ws eps g) = Some ws' ->
        forall slot c : nat,
          (slot < 2)%nat -> (c < dimension (g (edge_vertex e slot)))%nat ->
          let v := edge_vertex e slot in
          let D := dimension (g v) in
          read_column ws' slot (errorDimension e) c
          = central_difference
              (error e (setEstimate g v
                          (oplus (estimate (g v)) (basis D c eps))))
              (error e (setEstimate g v
                          (oplus (estimate (g v)) (basis D c (s0 - eps)))))
              eps).
Proof.
  split; [apply evaluateNumeric_restores |].
  intros Hwf ws' Hr slot c Hs Hc. cbv zeta.
  destruct (numeric_fold_spec e eps g (columns e g) Hwf g ws
              (same_vertices_refl g) (columns_NoDup e g)) as [_ Hcols].
  destruct (Hcols ws' Hr) as [Hin _].
  rewrite (Hin slot c) by (apply columns_in; split; assumption).
  reflexivity.
Qed.

(** C8: on a workspace sized once ([updateSize] for every edge of the graph,
    then [allocate]), after any pass of earlier evaluations into it, an
    evaluation succeeds and the blocks then read from slots 0 and 1, over
    their [D_e * D_vi] and [D_e * D_vj] cells, are the blocks determined by
    the inputs of that evaluation alone (the mode, the edge and the vertex
    estimates): nothing of what earlier evaluations wrote is read. *)
Theorem workspace_reuse (graph : list (Edge * Vertices))
    (requests : list Request) (mode : Mode) (e : Edge) (g : Vertices) :
  (forall rq : Request, In rq (requests ++ [(mode, e, g)]) ->
     well_formed (snd (fst rq)) (snd rq)
     /\ covered graph (snd (fst rq)) (snd rq)) ->
  exists wsn ws' : JacobianWorkspace,
    evaluate_all oplus requests (sized_for graph) = Some wsn
    /\ snd (evaluate oplus mode e wsn g) = Some ws'
    /\ forall slot : nat, (slot < 2)%nat ->
         read_block ws' slot (numElems e g slot)
         = jacobian_block oplus mode e g slot.
Proof.
  intros Hrq.
  destruct (evaluate_all_spec requests (sized_for graph)
              (sized_for_allocated graph))
    as (wsn & Hr & Han & En & Ed).
  { intros rq Hin.
    destruct (Hrq rq (proj2 (in_app_iff _ _ _) (or_introl Hin))) as [W C].
    split; [exact W | now apply sized_for_fits]. }
  assert (Hlast : In (mode, e, g) (requests ++ [(mode, e, g)]))
    by (apply in_app_iff; right; now left).
  destruct (Hrq (mode, e, g) Hlast) as [W C]. cbn [fst snd] in W, C.
  pose proof (fits_sizes (sized_for graph) wsn e g En Ed
                (sized_for_fits graph e g C)) as Hf.
  destruct (evaluate_spec mode e wsn g Han Hf W)
    as (ws' & Hw & _ & _ & _ & Hblock).
  exists wsn, ws'. auto.
Qed.

End LinearizationFacts.

Lemma difference_edge_well_formed (z a b : Point) :
  well_formed (difference_edge z) (two_points a b).
Proof.
  split.
  - intros [[ax ay] az] [[bx b_y] bz]. destruct z as [[zx zy] zz].
    reflexivity.
  - intros ? ?. split; reflexivity.
Qed.

Lemma evaluateNumeric_perturb_restore_witness :
  same_vertices
    (fst (evaluateNumeric point_oplus Fedge
            (sized_for [(Fedge, Fpoints)]) 0.5%float Fpoints)) Fpoints
  /\ snd (evaluateNumeric point_oplus Fedge
            (sized_for [(Fedge, Fpoints)]) 0.5%float Fpoints)
     = Some Fjacobians
  /\ read_column Fjacobians 1 3 2
     = central_difference
         (error Fedge
            (setEstimate Fpoints 1
               (point_oplus (4, 6, 8)%float (basis 3 2 0.5%float))))
         (error Fedge
            (setEstimate Fpoints 1
               (point_oplus (4, 6, 8)%float (basis 3 2 (0 - 0.5)%float))))
         0.5%float.
Proof.
  destruct (evaluateNumeric_perturb_restore Point point_oplus Fedge
              (sized_for [(Fedge, Fpoints)]) 0.5%float Fpoints)
    as [Hrestore Hcolumn].
  assert (Hr : snd (evaluateNumeric point_oplus Fedge
                      (sized_for [(Fedge, Fpoints)]) 0.5%float Fpoints)
               = Some Fjacobians) by (vm_compute; reflexivity).
  split; [exact Hrestore |]. split; [exact Hr |].
  exact (Hcolumn
           (proj1 (difference_edge_well_formed (1, 1, 1)%float (1, 2, 3)%float
                     (4, 6, 8)%float))
           Fjacobians Hr
           1%nat 2%nat ltac:(lia) ltac:(cbn; lia)).
Defined.

Lemma workspace_reuse_witness :
  exists wsn ws' : JacobianWorkspace,
    evaluate_all point_oplus
      [(Analytic, Fedge, Fpoints); (Numeric 0.5%float, Fedge', Fpoints')]
      (sized_for [(Fedge, Fpoints)]) = Some wsn
    /\ snd (evaluate point_oplus (Numeric 0.5%float) Fedge wsn Fpoints)
       = Some ws'
    /\ read_block ws' 0 9 = [-1; 0; 0; 0; -1; 0; 0; 0; -1]%float.
Proof.
  destruct (workspace_reuse Point point_oplus [(Fedge, Fpoints)]
              [(Analytic, Fedge, Fpoints);
               (Numeric 0.5%float, Fedge', Fpoints')]
              (Numeric 0.5%float) Fedge Fpoints)
    as (wsn & ws' & Hall & Hlast & Hblock).
  { intros rq Hin.
    assert (Hc : forall (z : Point) (g : Vertices Point),
               (g = Fpoints \/ g = Fpoints') ->
               covered [(Fedge, Fpoints)] (difference_edge z) g).
    { intros z g Hg. exists (Fedge, Fpoints).
      split; [now left |].
      destruct Hg as [-> | ->]; split; vm_compute; lia. }
    destruct Hin as [<- | [<- | [<- | []]]]; cbn [fst snd];
      (split; [apply difference_edge_well_formed | apply Hc; auto]). }
  exists wsn, ws'. split; [exact Hall |]. split; [exact Hlast |].
  pose proof (Hblock 0%nat ltac:(lia)) as Hb.
  change (numElems Fedge Fpoints 0) with 9%nat in Hb.
  rewrite Hb. vm_compute. reflexivity.
Defined.

(** ** Further properties of the functor *)

Section FunctorFrame.
Context {T : Type} `{Scalar T}.
Local Open Scope scalar_scope.

Lemma negate_all_frame (q : array T) (n : nat) :
  (3 <= n)%nat -> negate_all q n = q n.
Proof.
  intros Hn. rewrite negate_all_spec.
  destruct (Nat.ltb_spec n 3); [lia | reflexivity].
Qed.

Lemma store_frame (q : array T) (i n : nat) (v : T) :
  (i < 3)%nat -> (3 <= n)%nat -> store q i v n = q n.
Proof.
  intros Hi Hn. unfold store.
  destruct (Nat.eqb_spec n i); [lia | reflexivity].
Qed.

(** X1: the call writes cells 0, 1 and 2 of the output array and nothing
    else: every other cell holds after the call what it held before, in
    both branches and whether or not the sign is normalised. *)
Theorem rot2quat_frame (m q : array T) (n : nat) :
  (3 <= n)%nat -> snd (rot2quat m q) n = q n.
Proof.
  intros Hn. unfold rot2quat. destruct (trace m >? s0); cbn [snd].
  - unfold trace_branch. rewrite !store_frame by lia. reflexivity.
  - rewrite normalize_manifold_eta.
    assert (Hq : fst (diag_branch m q) n = q n).
    { unfold diag_branch. cbn [fst].
      destruct (select_index_cases m) as [E | [E | E]]; rewrite E;
        rewrite !store_frame by (cbn; lia); reflexivity. }
    destruct (snd (diag_branch m q) <? s0); [| exact Hq].
    rewrite negate_all_frame by exact Hn. exact Hq.
Qed.

End FunctorFrame.

Lemma rot2quat_frame_witness :
  snd (rot2quat Fthird Fgarbage) 3%nat = Fgarbage 3%nat.
Proof. apply (rot2quat_frame Fthird Fgarbage 3). lia. Defined.

Section FunctorMorphism.
Context {A B : Type} `{Scalar A} `{Scalar B}.
Variable h : A -> B.
Context `{!ScalarMorphism h}.
Local Open Scope scalar_scope.










End FunctorMorphism.

#[export] Instance ScalarMorphism_value : ScalarMorphism (@fst float float).
Proof. split; reflexivity. Qed.


(** *** The algebra of the branch of positive trace *)

Section TraceCase.
Local Open Scope R_scope.
Variables r00 r10 r20 r01 r11 r21 r02 r12 r22 : R.
Hypothesis H00 : r00 * r00 + r10 * r10 + r20 * r20 = 1.
Hypothesis H11 : r01 * r01 + r11 * r11 + r21 * r21 = 1.
Hypothesis H22 : r02 * r02 + r12 * r12 + r22 * r22 = 1.
Hypothesis H01 : r00 * r01 + r10 * r11 + r20 * r21 = 0.
Hypothesis H02 : r00 * r02 + r10 * r12 + r20 * r22 = 0.
Hypothesis H12 : r01 * r02 + r11 * r12 + r21 * r22 = 0.
Hypothesis Hdet :
  r00 * (r11 * r22 - r12 * r21) - r01 * (r10 * r22 - r12 * r20)
  + r02 * (r10 * r21 - r11 * r20) = 1.

Local Abbreviation pw := (r00 + r11 + r22 + 1).

Lemma sq_x : (r21 - r12) * (r21 - r12) = pw * (r00 - r11 - r22 + 1).
Proof. nsatz. Qed.

Lemma sq_y : (r02 - r20) * (r02 - r20) = pw * (r11 - r00 - r22 + 1).
Proof. nsatz. Qed.

Lemma sq_z : (r10 - r01) * (r10 - r01) = pw * (r22 - r00 - r11 + 1).
Proof. nsatz. Qed.

Lemma cross_xy : (r21 - r12) * (r02 - r20) = pw * (r10 + r01).
Proof. nsatz. Qed.

Lemma cross_xz : (r21 - r12) * (r10 - r01) = pw * (r20 + r02).
Proof. nsatz. Qed.

Lemma cross_y_z : (r02 - r20) * (r10 - r01) = pw * (r21 + r12).
Proof. nsatz. Qed.

Hypothesis Hpw : 0 < pw.

Local Abbreviation tw := (sqrt pw).
Local Abbreviation sw := (1 / 2 / tw).
Local Abbreviation qw := (1 / 2 * tw).
Local Abbreviation qx := ((r21 - r12) * sw).
Local Abbreviation qy := ((r02 - r20) * sw).
Local Abbreviation qz := ((r10 - r01) * sw).

Lemma tw_pos : 0 < tw.
Proof. now apply sqrt_lt_R0. Qed.

Lemma tw_sq : tw * tw = pw.
Proof. apply sqrt_sqrt. lra. Qed.

Lemma sw_sq : sw * sw = / (4 * pw).
Proof.
  pose proof tw_pos.
  replace (4 * pw) with (4 * (tw * tw)) by (now rewrite tw_sq).
  field. lra.
Qed.

Lemma scaled_product (a b c : R) :
  a * b = pw * c -> a * sw * (b * sw) = c / 4.
Proof.
  intros E.
  replace (a * sw * (b * sw)) with (a * b * (sw * sw)) by ring.
  rewrite sw_sq, E. field. lra.
Qed.

Lemma real_times_scaled (a : R) : qw * (a * sw) = a / 4.
Proof. pose proof tw_pos. field. lra. Qed.

Lemma qw_sq : qw * qw = pw / 4.
Proof.
  replace (1 / 2 * tw * (1 / 2 * tw)) with (tw * tw / 4) by field.
  now rewrite tw_sq.
Qed.

(** The quaternion [(qw, qx, qy, qz)] has unit norm and reproduces all nine
    entries. *)
Lemma trace_case_quaternion :
  qw * qw + qx * qx + qy * qy + qz * qz = 1
  /\ (1 - 2 * (qy * qy + qz * qz) = r00
      /\ 2 * (qx * qy - qw * qz) = r01
      /\ 2 * (qx * qz + qw * qy) = r02)
  /\ (2 * (qx * qy + qw * qz) = r10
      /\ 1 - 2 * (qx * qx + qz * qz) = r11
      /\ 2 * (qy * qz - qw * qx) = r12)
  /\ (2 * (qx * qz - qw * qy) = r20
      /\ 2 * (qy * qz + qw * qx) = r21
      /\ 1 - 2 * (qx * qx + qy * qy) = r22).
Proof.
  rewrite qw_sq, !real_times_scaled.
  rewrite (scaled_product _ _ _ sq_x), (scaled_product _ _ _ sq_y),
    (scaled_product _ _ _ sq_z), (scaled_product _ _ _ cross_xy),
    (scaled_product _ _ _ cross_xz), (scaled_product _ _ _ cross_y_z).
  repeat split; lra.
Qed.
End TraceCase.

(** *** The whole functor on rotation matrices *)

Section FunctorOnRotations.
Local Open Scope R_scope.

Lemma trace_branch_represents (m q : array R) :
  is_rotation m -> (trace m >? s0)%sc = true ->
  represents (1 / 2 * sqrt (trace m + 1)) (trace_branch m q) m.
Proof.
  intros [Ho Hd] Ht.
  pose proof (Ho 0 0 ltac:(lia) ltac:(lia))%nat as O00.
  pose proof (Ho 0 1 ltac:(lia) ltac:(lia))%nat as O01.
  pose proof (Ho 0 2 ltac:(lia) ltac:(lia))%nat as O02.
  pose proof (Ho 1 1 ltac:(lia) ltac:(lia))%nat as O11.
  pose proof (Ho 1 2 ltac:(lia) ltac:(lia))%nat as O12.
  pose proof (Ho 2 2 ltac:(lia) ltac:(lia))%nat as O22.
  unfold col_dot in *. cbn [Nat.eqb] in *. unfold det in Hd.
  unfold trace in *. scalar_R. apply Rltb_true in Ht.
  destruct (trace_case_quaternion
              (coeff m 0 0) (coeff m 1 0) (coeff m 2 0)
              (coeff m 0 1) (coeff m 1 1) (coeff m 2 1)
              (coeff m 0 2) (coeff m 1 2) (coeff m 2 2))
    as (Hn & (A1 & A2 & A3) & (B1 & B2 & B3) & (C1 & C2 & C3));
    try lra.
  unfold trace_branch, trace. scalar_R.
  split.
  - unfold store; cbn [Nat.eqb]. lra.
  - intros r c Hr Hc.
    destruct (lt_3_cases Hr) as [-> | [-> | ->]];
      destruct (lt_3_cases Hc) as [-> | [-> | ->]];
      unfold quat_to_matrix, store; cbn [Nat.eqb]; lra.
Qed.

(** The sign normalisation, spelled out over the reals. *)
Lemma normalize_manifold_represents (m qu : array R) (w : R) :
  represents w qu m ->
  represents (Rabs w) (normalize_manifold (qu, w)) m.
Proof.
  intros Hr. rewrite normalize_manifold_eta. cbn [fst snd]. scalar_R.
  destruct (Rltb w 0) eqn:Hw;
    [apply Rltb_true in Hw | apply Rltb_false in Hw].
  - rewrite Rabs_left by exact Hw.
    replace (- w) with (w * - 1) by ring.
    apply (@represents_antipodal w qu (negate_all qu) m Hr).
    intros l Hl. rewrite negate_all_spec.
    destruct (lt_3_cases Hl) as [-> | [-> | ->]]; reflexivity.
  - rewrite Rabs_right by lra. exact Hr.
Qed.

(** On a rotation matrix the output is the imaginary part of a unit
    quaternion of that matrix whose real part is not negative. *)
Lemma rot2quat_represents_some (m q : array R) :
  is_rotation m ->
  exists w : R, 0 <= w /\ represents w (snd (rot2quat m q)) m.
Proof.
  intros Hrot. unfold rot2quat.
  destruct (trace m >? s0)%sc eqn:Ht; cbn [snd].
  - exists (1 / 2 * sqrt (trace m + 1)). split.
    + pose proof (sqrt_pos (trace m + 1)). lra.
    + now apply trace_branch_represents.
  - exists (Rabs (snd (diag_branch m q))). split; [apply Rabs_pos |].
    rewrite (surjective_pairing (diag_branch m q)).
    apply normalize_manifold_represents.
    now apply (@diag_branch_represents m q).
Qed.

(** X3: for every rotation matrix, in whichever branch, the three numbers
    the call leaves in the output are the imaginary part of a unit
    quaternion whose rotation matrix is the input and whose real part is the
    non-negative one the manifold convention implies; in particular their
    squares sum to at most one. *)
Theorem rot2quat_unit_quaternion (m q : array R) :
  is_rotation m ->
  let out := snd (rot2quat m q) in
  represents (implied_real_part out) out m
  /\ out 0%nat * out 0%nat + out 1%nat * out 1%nat + out 2%nat * out 2%nat
     <= 1.
Proof.
  intros Hrot out.
  destruct (rot2quat_represents_some m q Hrot) as (w & Hw & Hr).
  fold out in Hr.
  rewrite (@implied_real_part_unique w out Hw (proj1 Hr)).
  split; [exact Hr |].
  destruct Hr as [Hn _]. nra.
Qed.

End FunctorOnRotations.

Lemma trace_Rquarter_z : (trace Rquarter_z >? s0)%sc = true.
Proof. unfold Rquarter_z. entries_R. apply Rltb_true. lra. Qed.

Lemma is_rotation_Rquarter_z : is_rotation Rquarter_z.
Proof.
  split.
  - intros a b Ha Hb.
    destruct (lt_3_cases Ha) as [-> | [-> | ->]];
      destruct (lt_3_cases Hb) as [-> | [-> | ->]];
      unfold Rquarter_z; entries_R; lra.
  - unfold Rquarter_z. entries_R. lra.
Qed.

Lemma rot2quat_unit_quaternion_witness :
  is_rotation Rquarter_z
  /\ represents
       (implied_real_part (snd (rot2quat Rquarter_z (fun _ => 7%R))))
       (snd (rot2quat Rquarter_z (fun _ => 7%R))) Rquarter_z.
Proof.
  split; [exact is_rotation_Rquarter_z |].
  exact (proj1 (rot2quat_unit_quaternion Rquarter_z (fun _ => 7%R)
                  is_rotation_Rquarter_z)).
Defined.

(** *** From a quaternion to its matrix and back *)

Section RoundTrip.
Local Open Scope R_scope.

Lemma coeff_matrix_of_quaternion (w : R) (q : array R) (r c : nat) :
  (r < 3)%nat -> (c < 3)%nat ->
  coeff (matrix_of_quaternion w q) r c = quat_to_matrix w q r c.
Proof.
  intros Hr Hc.
  destruct (lt_3_cases Hr) as [-> | [-> | ->]];
    destruct (lt_3_cases Hc) as [-> | [-> | ->]]; reflexivity.
Qed.

Lemma matrix_of_quaternion_rotation (w : R) (q : array R) :
  w * w + q 0%nat * q 0%nat + q 1%nat * q 1%nat + q 2%nat * q 2%nat = 1 ->
  is_rotation (matrix_of_quaternion w q).
Proof.
  intros Hn. split.
  - intros a b Ha Hb. unfold col_dot.
    rewrite !coeff_matrix_of_quaternion by lia.
    destruct (lt_3_cases Ha) as [-> | [-> | ->]];
      destruct (lt_3_cases Hb) as [-> | [-> | ->]];
      cbn [quat_to_matrix Nat.eqb]; cbv zeta; nsatz.
  - unfold det. rewrite !coeff_matrix_of_quaternion by lia.
    cbn [quat_to_matrix]. cbv zeta. nsatz.
Qed.

Lemma matrix_of_quaternion_represents (w : R) (q : array R) :
  w * w + q 0%nat * q 0%nat + q 1%nat * q 1%nat + q 2%nat * q 2%nat = 1 ->
  represents w q (matrix_of_quaternion w q).
Proof.
  intros Hn. split; [exact Hn |].
  intros r c Hr Hc. symmetry. now apply coeff_matrix_of_quaternion.
Qed.

(** A rotation matrix has one unit quaternion with positive real part. *)
Lemma represents_unique (w w' : R) (q q' m : array R) :
  represents w q m -> represents w' q' m -> 0 < w -> 0 <= w' ->
  w' = w /\ forall l : nat, (l < 3)%nat -> q' l = q l.
Proof.
  intros [Hn Hm] [Hn' Hm'] Hw Hw'.
  assert (E : forall r c : nat, (r < 3)%nat -> (c < 3)%nat ->
                quat_to_matrix w' q' r c = quat_to_matrix w q r c).
  { intros r c Hr Hc. now rewrite Hm, Hm'. }
  pose proof (E 0 0 ltac:(lia) ltac:(lia))%nat as E00.
  pose proof (E 1 1 ltac:(lia) ltac:(lia))%nat as E11.
  pose proof (E 2 2 ltac:(lia) ltac:(lia))%nat as E22.
  pose proof (E 0 1 ltac:(lia) ltac:(lia))%nat as E01.
  pose proof (E 1 0 ltac:(lia) ltac:(lia))%nat as E10.
  pose proof (E 0 2 ltac:(lia) ltac:(lia))%nat as E02.
  pose proof (E 2 0 ltac:(lia) ltac:(lia))%nat as E20.
  pose proof (E 1 2 ltac:(lia) ltac:(lia))%nat as E12.
  pose proof (E 2 1 ltac:(lia) ltac:(lia))%nat as E21.
  cbn [quat_to_matrix] in *. cbv zeta in *.
  assert (Eww : w' * w' = w * w) by lra.
  assert (Ew : w' = w) by nra.
  split; [exact Ew |]. subst w'.
  intros l Hl.
  destruct (lt_3_cases Hl) as [-> | [-> | ->]];
    apply (Rmult_eq_reg_l w); try lra.
Qed.

(** X4: from a unit quaternion to its rotation matrix and back through the
    functor: when the real part is positive the three output cells are the
    imaginary part one started from, and when it is negative they are its
    negation (the other quaternion of the antipodal pair). *)
Theorem rot2quat_round_trip (w : R) (q q0 : array R) :
  w * w + q 0%nat * q 0%nat + q 1%nat * q 1%nat + q 2%nat * q 2%nat = 1 ->
  w <> 0 ->
  forall l : nat, (l < 3)%nat ->
    snd (rot2quat (matrix_of_quaternion w q) q0) l
    = if Rltb 0 w then q l else - q l.
Proof.
  intros Hn Hw l Hl.
  set (m := matrix_of_quaternion w q).
  pose proof (matrix_of_quaternion_rotation w q Hn) as Hrot. fold m in Hrot.
  pose proof (matrix_of_quaternion_represents w q Hn) as Hrep. fold m in Hrep.
  destruct (rot2quat_represents_some m q0 Hrot) as (w' & Hw' & Hout).
  destruct (Rltb 0 w) eqn:Hs;
    [apply Rltb_true in Hs | apply Rltb_false in Hs].
  - exact (proj2 (represents_unique w w' q _ m Hrep Hout Hs Hw') l Hl).
  - assert (Hneg : represents (w * - 1) (fun n => q n * - 1) m).
    { apply (@represents_antipodal w q (fun n => q n * - 1) m Hrep).
      reflexivity. }
    rewrite (proj2 (represents_unique (w * - 1) w' _ _ m Hneg Hout
                      ltac:(lra) Hw') l Hl).
    ring.
Qed.

End RoundTrip.

Lemma rot2quat_round_trip_witness :
  snd (rot2quat (matrix_of_quaternion (1 / 2) Rhalves) (fun _ => 7%R)) 0%nat
  = (1 / 2)%R.
Proof.
  assert (Hn : (1 / 2 * (1 / 2) + Rhalves 0%nat * Rhalves 0%nat
                + Rhalves 1%nat * Rhalves 1%nat
                + Rhalves 2%nat * Rhalves 2%nat = 1)%R)
    by (unfold Rhalves; lra).
  assert (Hw : (1 / 2 <> 0)%R) by lra.
  rewrite (rot2quat_round_trip (1 / 2) Rhalves (fun _ => 7%R) Hn Hw 0%nat
             ltac:(lia)).
  assert (Hs : Rltb 0 (1 / 2) = true) by (apply Rltb_true; lra).
  rewrite Hs. reflexivity.
Defined.

(** *** The transposed matrix *)

Lemma coeff_transpose {T : Type} `{Scalar T} (m : array T) (r c : nat) :
  (r < 3)%nat -> (c < 3)%nat -> coeff (transpose m) r c = coeff m c r.
Proof.
  intros Hr Hc.
  destruct (lt_3_cases Hr) as [-> | [-> | ->]];
    destruct (lt_3_cases Hc) as [-> | [-> | ->]]; reflexivity.
Qed.

Lemma trace_transpose {T : Type} `{Scalar T} (m : array T) :
  trace (transpose m) = trace m.
Proof. unfold trace. now rewrite !coeff_transpose by lia. Qed.

Lemma select_index_transpose {T : Type} `{Scalar T} (m : array T) :
  select_index (transpose m) = select_index m.
Proof.
  unfold select_index. rewrite !(coeff_transpose m 1 1), !(coeff_transpose m 0 0),
    !(coeff_transpose m 2 2) by lia.
  destruct (coeff m 1 1 >? coeff m 0 0)%sc;
    now rewrite ?(coeff_transpose m 1 1), ?(coeff_transpose m 0 0) by lia.
Qed.

Section Transpose.
Local Open Scope R_scope.

Lemma diag_branch_transpose (m q : array R) :
  (forall l : nat,
      fst (diag_branch (transpose m) q) l = fst (diag_branch m q) l)
  /\ snd (diag_branch (transpose m) q) = - snd (diag_branch m q).
Proof.
  unfold diag_branch, diag_arg. cbn [fst snd].
  rewrite select_index_transpose.
  destruct (select_index_cases m) as [E | [E | E]]; rewrite E;
    unfold next_index;
    cbn [Nat.add Nat.modulo Nat.divmod fst snd Nat.sub];
    rewrite !coeff_transpose by lia; scalar_R;
    (split; [intros l; unfold store;
             repeat (destruct (Nat.eqb l _); [ring || reflexivity |]);
             reflexivity
            | ring]).
Qed.

(** X5: transposing the matrix negates the output.  With a positive trace
    this holds for every real matrix; with a non-positive trace it holds
    whenever the real part computed in the else branch is not zero, and when
    that real part is zero the output is the same for the matrix and its
    transpose. *)
Theorem rot2quat_transpose (m q : array R) (l : nat) :
  (l < 3)%nat ->
  ((trace m >? s0)%sc = true \/ snd (diag_branch m q) <> 0 ->
   snd (rot2quat (transpose m) q) l = - snd (rot2quat m q) l)
  /\ ((trace m >? s0)%sc = false -> snd (diag_branch m q) = 0 ->
      snd (rot2quat (transpose m) q) l = snd (rot2quat m q) l).
Proof.
  intros Hl. unfold rot2quat. rewrite trace_transpose.
  destruct (diag_branch_transpose m q) as [Hq Hw].
  destruct (trace m >? s0)%sc eqn:Ht; cbn [snd].
  - split; [intros _ | discriminate].
    unfold trace_branch. rewrite trace_transpose.
    rewrite !coeff_transpose by lia. scalar_R.
    destruct (lt_3_cases Hl) as [-> | [-> | ->]];
      unfold store; cbn [Nat.eqb]; ring.
  - rewrite !normalize_manifold_eta, Hw. scalar_R. split.
    + intros [C | Hw0]; [discriminate |].
      destruct (Rltb (snd (diag_branch m q)) 0) eqn:H1;
        destruct (Rltb (- snd (diag_branch m q)) 0) eqn:H2;
        rewrite ?Rltb_true, ?Rltb_false in *; try lra;
        rewrite ?negate_all_spec;
        destruct (lt_3_cases Hl) as [-> | [-> | ->]];
        cbn [Nat.ltb Nat.leb]; rewrite ?Hq; scalar_R; ring.
    + intros _ Hw0. rewrite Hw0.
      replace (- 0) with 0 by ring.
      destruct (Rltb 0 0) eqn:H1; [apply Rltb_true in H1; lra |].
      apply Hq.
Qed.

End Transpose.

Lemma rot2quat_transpose_witness :
  (trace Rquarter_z >? s0)%sc = true
  /\ snd (rot2quat (transpose Rquarter_z) (fun _ => 7%R)) 2%nat
     = (- snd (rot2quat Rquarter_z (fun _ => 7%R)) 2%nat)%R.
Proof.
  split; [exact trace_Rquarter_z |].
  exact (proj1 (rot2quat_transpose Rquarter_z (fun _ => 7%R) 2%nat
                  ltac:(lia)) (or_introl trace_Rquarter_z)).
Defined.

(** *** Sizes of the output components *)

Section Magnitudes.
Local Open Scope R_scope.

Lemma half_over_sqrt_bound (x : R) :
  1 <= x -> 0 < 1 / 2 / sqrt x <= 1 / 2.
Proof.
  intros Hx.
  assert (Hs : 1 <= sqrt x).
  { rewrite <- sqrt_1 at 1. apply sqrt_le_1_alt. exact Hx. }
  split.
  - apply Rdiv_lt_0_compat; lra.
  - apply (Rmult_le_reg_r (sqrt x)); [lra |].
    unfold Rdiv at 1. rewrite Rmult_assoc, Rinv_l by lra. lra.
Qed.

Lemma Rabs_scaled (a s : R) :
  0 < s <= 1 / 2 -> Rabs (a * s) <= Rabs a / 2.
Proof.
  intros [Hs0 Hs1]. rewrite Rabs_mult, (Rabs_right s) by lra.
  pose proof (Rabs_pos a). nra.
Qed.

Lemma Rabs_normalize_manifold (qu : array R) (w : R) (l : nat) :
  Rabs (normalize_manifold (qu, w) l) = Rabs (qu l).
Proof.
  rewrite normalize_manifold_eta. cbn [fst snd].
  destruct (w <? s0)%sc; [| reflexivity].
  rewrite negate_all_spec. destruct (l <? 3)%nat; [| reflexivity].
  scalar_R. replace (qu l * - 1) with (- qu l) by ring. apply Rabs_Ropp.
Qed.

(** X6: the factor by which the functor scales differences and sums of
    matrix entries never exceeds one half, for every real matrix.  With a
    positive trace each output is in absolute value at most half the
    antisymmetric difference it comes from; with a non-positive trace the
    component at the selected index is at least one half in absolute value
    and the other two are at most half the off-diagonal sums they come
    from. *)
Theorem rot2quat_magnitudes (m q : array R) :
  let out := snd (rot2quat m q) in
  ((trace m >? s0)%sc = true ->
     Rabs (out 0%nat) <= Rabs (coeff m 2 1 - coeff m 1 2) / 2
     /\ Rabs (out 1%nat) <= Rabs (coeff m 0 2 - coeff m 2 0) / 2
     /\ Rabs (out 2%nat) <= Rabs (coeff m 1 0 - coeff m 0 1) / 2)
  /\ ((trace m >? s0)%sc = false ->
        let i := select_index m in
        let j := next_index i in
        let k := next_index j in
        1 / 2 <= Rabs (out i)
        /\ Rabs (out j) <= Rabs (coeff m j i + coeff m i j) / 2
        /\ Rabs (out k) <= Rabs (coeff m k i + coeff m i k) / 2).
Proof.
  cbv zeta. split; intros Ht.
  - rewrite (rot2quat_trace m q Ht). cbn [snd].
    assert (Hs : 0 < 1 / 2 / sqrt (trace m + 1) <= 1 / 2).
    { apply half_over_sqrt_bound. scalar_R. apply Rltb_true in Ht. lra. }
    unfold trace_branch, store. cbn [Nat.eqb]. scalar_R.
    repeat split; now apply Rabs_scaled.
  - rewrite (rot2quat_diag m q Ht). cbn [snd].
    rewrite (surjective_pairing (diag_branch m q)).
    rewrite !Rabs_normalize_manifold.
    pose proof (diag_arg_ge_1 m Ht) as Hp.
    pose proof (half_over_sqrt_bound _ Hp) as Hs.
    destruct (diag_branch_cells m q) as (Ei & Ej & Ek & _).
    cbv zeta in Ei, Ej, Ek. rewrite Ei, Ej, Ek. scalar_R.
    split; [| split; now apply Rabs_scaled].
    assert (H1 : 1 <= sqrt (diag_arg m (select_index m))).
    { rewrite <- sqrt_1 at 1. now apply sqrt_le_1_alt. }
    rewrite Rabs_right by lra. lra.
Qed.

(** The squares of two components of a unit quaternion compare as the
    diagonal entries of its matrix. *)
Lemma represents_diagonal_order (w : R) (qu m : array R) (a b : nat) :
  represents w qu m -> (a < 3)%nat -> (b < 3)%nat ->
  coeff m a a <= coeff m b b -> qu a * qu a <= qu b * qu b.
Proof.
  intros [_ Hm] Ha Hb.
  rewrite <- (Hm a a Ha Ha), <- (Hm b b Hb Hb).
  destruct (lt_3_cases Ha) as [-> | [-> | ->]];
    destruct (lt_3_cases Hb) as [-> | [-> | ->]];
    cbn [quat_to_matrix]; cbv zeta; lra.
Qed.

(** X7: on a rotation matrix, in either branch, the output component at
    the index of the largest diagonal entry (the index the else branch
    selects) is a largest component in absolute value. *)
Theorem rot2quat_dominant_component (m q : array R) (l : nat) :
  is_rotation m -> (l < 3)%nat ->
  Rabs (snd (rot2quat m q) l)
  <= Rabs (snd (rot2quat m q) (select_index m)).
Proof.
  intros Hrot Hl.
  destruct (rot2quat_represents_some m q Hrot) as (w & _ & Hr).
  apply Rsqr_le_abs_0. unfold Rsqr.
  apply (represents_diagonal_order w _ m l (select_index m) Hr Hl
           (select_index_lt m)).
  now apply (@select_index_max m l).
Qed.

(** X8: among rotation matrices the identity, and only the identity, is
    sent to the zero vector. *)
Theorem rot2quat_zero_iff_identity (m q : array R) :
  is_rotation m ->
  (forall l : nat, (l < 3)%nat -> snd (rot2quat m q) l = 0)
  <-> (forall r c : nat, (r < 3)%nat -> (c < 3)%nat ->
         coeff m r c = if Nat.eqb r c then 1 else 0).
Proof.
  intros Hrot. split.
  - intros Hz.
    destruct (rot2quat_represents_some m q Hrot) as (w & Hw & [Hn Hm]).
    pose proof (Hz 0%nat ltac:(lia)) as Z0.
    pose proof (Hz 1%nat ltac:(lia)) as Z1.
    pose proof (Hz 2%nat ltac:(lia)) as Z2.
    rewrite Z0, Z1, Z2 in Hn.
    assert (Ew : w = 1) by nra.
    intros r c Hr Hc. rewrite <- (Hm r c Hr Hc).
    destruct (lt_3_cases Hr) as [-> | [-> | ->]];
      destruct (lt_3_cases Hc) as [-> | [-> | ->]];
      cbn [quat_to_matrix Nat.eqb]; cbv zeta; rewrite ?Z0, ?Z1, ?Z2; lra.
  - intros Hid l Hl.
    assert (Ht : (trace m >? s0)%sc = true).
    { unfold trace. rewrite !Hid by lia. cbn [Nat.eqb]. scalar_R.
      apply Rltb_true. lra. }
    rewrite (rot2quat_trace m q Ht). cbn [snd].
    unfold trace_branch, store.
    destruct (lt_3_cases Hl) as [-> | [-> | ->]]; cbn [Nat.eqb];
      rewrite !Hid by lia; cbn [Nat.eqb]; scalar_R; ring.
Qed.

End Magnitudes.

Lemma trace_identity_matrix : (trace identity_matrix >? s0)%sc = true.
Proof. unfold identity_matrix. entries_R. apply Rltb_true. lra. Qed.

Lemma is_rotation_identity_matrix : is_rotation identity_matrix.
Proof.
  split.
  - intros a b Ha Hb.
    destruct (lt_3_cases Ha) as [-> | [-> | ->]];
      destruct (lt_3_cases Hb) as [-> | [-> | ->]];
      unfold identity_matrix; entries_R; lra.
  - unfold identity_matrix. entries_R. lra.
Qed.

Lemma rot2quat_magnitudes_witness :
  (trace Rthird >? s0)%sc = false
  /\ (1 / 2 <= Rabs (snd (rot2quat Rthird (fun _ => 7%R))
                       (select_index Rthird)))%R.
Proof.
  split; [exact trace_Rthird |].
  exact (proj1 (proj2 (rot2quat_magnitudes Rthird (fun _ => 7%R))
                  trace_Rthird)).
Defined.

Lemma rot2quat_dominant_component_witness :
  is_rotation Rquarter_z
  /\ (Rabs (snd (rot2quat Rquarter_z (fun _ => 7%R)) 0%nat)
      <= Rabs (snd (rot2quat Rquarter_z (fun _ => 7%R))
                 (select_index Rquarter_z)))%R.
Proof.
  split; [exact is_rotation_Rquarter_z |].
  exact (rot2quat_dominant_component Rquarter_z (fun _ => 7%R) 0%nat
           is_rotation_Rquarter_z ltac:(lia)).
Defined.

Lemma rot2quat_zero_iff_identity_witness :
  is_rotation identity_matrix
  /\ snd (rot2quat identity_matrix (fun _ => 7%R)) 1%nat = 0%R.
Proof.
  split; [exact is_rotation_identity_matrix |].
  apply (proj2 (rot2quat_zero_iff_identity identity_matrix (fun _ => 7%R)
                  is_rotation_identity_matrix)); [| lia].
  intros r c Hr Hc.
  destruct (lt_3_cases Hr) as [-> | [-> | ->]];
    destruct (lt_3_cases Hc) as [-> | [-> | ->]];
    unfold identity_matrix; entries_R; reflexivity.
Defined.

(** *** The real part that is not returned *)

(** X9: on a rotation matrix, in either branch, the real part that belongs
    to the output is [0.5 * sqrt(trace + 1)] (the value the positive-trace
    branch would call [w]); the trace of a rotation matrix therefore lies
    between [-1] and [3], and the positive-trace branch is taken exactly
    when that real part exceeds one half. *)
Theorem rot2quat_real_part_from_trace (m q : array R) :
  is_rotation m ->
  implied_real_part (snd (rot2quat m q)) = (1 / 2 * sqrt (trace m + 1))%R
  /\ (- 1 <= trace m <= 3)%R
  /\ ((trace m >? s0)%sc = true
      <-> (1 / 2 < implied_real_part (snd (rot2quat m q)))%R).
Proof.
  intros Hrot.
  destruct (rot2quat_represents_some m q Hrot) as (w & Hw & Hr).
  rewrite (@implied_real_part_unique w _ Hw (proj1 Hr)).
  destruct Hr as [Hn Hm].
  pose proof (Hm 0 0 ltac:(lia) ltac:(lia))%nat as E00.
  pose proof (Hm 1 1 ltac:(lia) ltac:(lia))%nat as E11.
  pose proof (Hm 2 2 ltac:(lia) ltac:(lia))%nat as E22.
  cbn [quat_to_matrix] in E00, E11, E22. cbv zeta in E00, E11, E22.
  assert (Et : (trace m + 1 = (2 * w) * (2 * w))%R).
  { unfold trace. scalar_R. nra. }
  assert (Es : sqrt (trace m + 1) = (2 * w)%R).
  { apply sqrt_lem_1; [nra | lra | lra]. }
  split; [rewrite Es; lra |].
  split; [nra |].
  scalar_R. rewrite Rltb_true. split; intros; nra.
Qed.

Lemma rot2quat_real_part_from_trace_witness :
  is_rotation Rthird
  /\ implied_real_part (snd (rot2quat Rthird (fun _ => 7%R)))
     = (1 / 2 * sqrt (trace Rthird + 1))%R.
Proof.
  split; [exact is_rotation_Rthird |].
  exact (proj1 (rot2quat_real_part_from_trace Rthird (fun _ => 7%R)
                  is_rotation_Rthird)).
Defined.

Lemma evaluateJacobian_compares_witness :
  exists (g' : Vertices Point) (jws' nws' : JacobianWorkspace),
    evaluateJacobian point_oplus Fedge 0.5%float emptyWorkspace
      (sized_for [(Fedge, Fpoints)]) Fpoints
    = Some (g', jws', nws',
            flat_map
              (fun i =>
                 combine (numeric_block point_oplus Fedge 0.5%float Fpoints i)
                         (analytic_block Fedge Fpoints i))
              [0; 1]%nat)
    /\ same_vertices g' Fpoints.
Proof.
  apply (evaluateJacobian_compares Point point_oplus Fedge 0.5%float
           emptyWorkspace (sized_for [(Fedge, Fpoints)]) Fpoints).
  - apply sized_for_allocated.
  - apply sized_for_fits. exists (Fedge, Fpoints).
    split; [now left | split; apply le_n].
  - apply difference_edge_well_formed.
Defined.

